(** * MarqueeSlider: measurement, clone factor and style builder

    A shallow embedding of the [MarqueeSlider] React component
    (abundiko/react-marquee) and of the helpers [animationStyle] and
    [fadeStyle] that live next to it.

    ECMAScript numbers are IEEE 754 binary64 values.  They are modelled by
    [spec_float] with the operations of [SpecFloat] at precision 53 and
    maximal exponent 1024, so that [NaN], the two infinities, the two zeros
    and rounding behave as they do in the browser.

    The component keeps three pieces of state ([uid], [mFactor],
    [distance]).  One run of [handleResize] is modelled as the list of the
    state setters it calls, committed in order.  The elements behind the two
    refs enter as the bounding rectangles they report.  The children
    enter the rendered tree as one opaque node.

    The second half of the file follows the component through its life: the
    tree one render returns, the window's "resize" listeners under mounting,
    re-rendering and unmounting, and [randomUID] over the draws of
    [Math.random]. *)

From Stdlib Require Import ZArith Bool List String Ascii Lia QArith Qpower.
From Stdlib Require Import DecimalString DecimalNat.
From Stdlib Require Import Floats.SpecFloat.
Import ListNotations.

Local Open Scope string_scope.
Local Open Scope Z_scope.

(** ** ECMAScript primitives used by the component *)

Module JS.

Definition number := spec_float.

Definition prec : Z := 53.
Definition emax : Z := 1024.

Definition NaN : number := S754_nan.
Definition Infinity : number := S754_infinity false.
Definition zero : number := S754_zero false.

(** An integer literal such as [50] or [400]. *)
Definition of_Z (n : Z) : number := binary_normalize prec emax n 0 false.

Definition one : number := Eval cbv in of_Z 1.

(** [x * y] and [x / y]. *)
Definition mul (x y : number) : number := SFmul prec emax x y.
Definition div (x y : number) : number := SFdiv prec emax x y.

(** [x === y], [x < y] and [x <= y] on numbers. *)
Definition eqb (x y : number) : bool := SFeqb x y.
Definition ltb (x y : number) : bool := SFltb x y.
Definition leb (x y : number) : bool := SFleb x y.

(** A value a binary64 number can really take. *)
Definition valid (x : number) : bool := valid_binary prec emax x.

Definition is_nan (x : number) : bool :=
  match x with S754_nan => true | _ => false end.

Definition is_finite (x : number) : bool :=
  match x with
  | S754_zero _ | S754_finite _ _ _ => true
  | S754_infinity _ | S754_nan => false
  end.

(** ToBoolean on a number: [NaN], [+0] and [-0] are falsy. *)
Definition truthy (x : number) : bool :=
  match x with
  | S754_nan | S754_zero _ => false
  | S754_infinity _ | S754_finite _ _ _ => true
  end.

(** [x || d]. *)
Definition or_else (x d : number) : number := if truthy x then x else d.

(** [Math.ceil], after the language standard: [NaN], the zeros and the
    infinities are returned as they are, so is a number without fractional
    part; otherwise the result is the next integer above, which is [-0] for
    an argument in (-1, 0). *)
Definition Math_ceil (x : number) : number :=
  match x with
  | S754_finite s m (Zneg k) =>
      let q := Z.shiftr (Zpos m) (Zpos k) in
      if Z.eqb (Z.shiftl q (Zpos k)) (Zpos m) then x
      else if s then (if Z.eqb q 0 then S754_zero true else of_Z (- q))
           else of_Z (q + 1)
  | _ => x
  end.

(** The mathematical integer a number denotes, when it denotes one. *)
Definition to_integer (x : number) : option Z :=
  match x with
  | S754_zero _ => Some 0
  | S754_finite s m e =>
      match e with
      | Zneg k =>
          let q := Z.shiftr (Zpos m) (Zpos k) in
          if Z.eqb (Z.shiftl q (Zpos k)) (Zpos m)
          then Some (if s then - q else q) else None
      | _ => Some (if s then - (Z.shiftl (Zpos m) e) else Z.shiftl (Zpos m) e)
      end
  | S754_infinity _ | S754_nan => None
  end.



(** A number that is a zero, finite or infinite with sign bit [s]; in
    particular not [NaN]. *)
Inductive signed (s : bool) : number -> Prop :=
| signed_zero : signed s (S754_zero s)
| signed_finite m e : signed s (S754_finite s m e)
| signed_infinity : signed s (S754_infinity s).

(** A mantissa and exponent with no digit to spare: a canonical mantissa,
    or zero at the least exponent. *)
Definition settled (m e : Z) : Prop :=
  (0 < m /\ fexp prec emax (Zdigits2 m + e) = e)
  \/ (m = 0 /\ e = SpecFloat.emin prec emax).

(** [hay.includes(needle)]. *)
Fixpoint includes (needle hay : string) : bool :=
  if String.prefix needle hay then true
  else match hay with
       | EmptyString => false
       | String _ rest => includes needle rest
       end.

End JS.

Definition number := JS.number.

(** ** Props *)

Inductive MarqueeSliderAxis := AxisX | AxisY | AxisNegX | AxisNegY.

Inductive MarqueeSliderFade := FadeStart | FadeEnd | FadeBoth.

(** The string literal each member of the union type stands for. *)
Definition axis_string (a : MarqueeSliderAxis) : string :=
  match a with
  | AxisX => "x"
  | AxisY => "y"
  | AxisNegX => "-x"
  | AxisNegY => "-y"
  end.

Definition fade_string (f : MarqueeSliderFade) : string :=
  match f with
  | FadeStart => "start"
  | FadeEnd => "end"
  | FadeBoth => "both"
  end.

(** A piece of a template literal: literal text, an interpolated number, or
    the interpolated [uid] state, which is [null] until the first effect. *)
Inductive chunk :=
| Lit (s : string)
| Num (n : number)
| Uid (u : option string).

Inductive css_value :=
| Text (s : string)
| Template (parts : list chunk).

(** A style object: its own properties in insertion order. *)
Definition CSSProperties := list (string * css_value).

Fixpoint get_prop (k : string) (o : CSSProperties) : option css_value :=
  match o with
  | [] => None
  | (k', v) :: rest => if String.eqb k k' then Some v else get_prop k rest
  end.

(** [o[k] = v]: an existing key keeps its place, a new one goes last. *)
Fixpoint set_prop (k : string) (v : css_value) (o : CSSProperties) : CSSProperties :=
  match o with
  | [] => [(k, v)]
  | (k', v') :: rest =>
      if String.eqb k k' then (k', v) :: rest else (k', v') :: set_prop k v rest
  end.

(** [{...o, ...src}]. *)
Definition spread (o src : CSSProperties) : CSSProperties :=
  fold_left (fun acc kv => set_prop (fst kv) (snd kv) acc) src o.

Record MarqueeSliderProps := {
  speed : option number;
  axis : option MarqueeSliderAxis;
  clone : option bool;
  balanceDistance : option number;
  className : option string;
  style : option CSSProperties;
  pauseOnHover : option bool;
  fade : option MarqueeSliderFade
}.

(** A destructuring default: [x = d] takes [d] when the prop is absent. *)
Definition default {A} (d : A) (o : option A) : A :=
  match o with Some x => x | None => d end.

Definition axis_of (props : MarqueeSliderProps) := default AxisX (axis props).
Definition speed_of (props : MarqueeSliderProps) := default (JS.of_Z 50) (speed props).
Definition clone_of (props : MarqueeSliderProps) := default true (clone props).
Definition balanceDistance_of (props : MarqueeSliderProps) :=
  default (JS.of_Z 400) (balanceDistance props).
Definition pauseOnHover_of (props : MarqueeSliderProps) :=
  default false (pauseOnHover props).

Definition isVertical (a : MarqueeSliderAxis) : bool :=
  JS.includes "y" (axis_string a).

Definition flexDirection (a : MarqueeSliderAxis) : string :=
  if negb (isVertical a) then "row" else "column".

(** ** Measured state *)

Record State := {
  uid : option string;
  mFactor : number;
  distance : number
}.

(** The three [useState] initial values. *)
Definition initial_state (props : MarqueeSliderProps) : State :=
  {| uid := None; mFactor := JS.of_Z 1; distance := balanceDistance_of props |}.

Inductive SetState :=
| setUid (u : string)
| setMFactor (n : number)
| setDistance (n : number).

Definition apply_update (st : State) (u : SetState) : State :=
  match u with
  | setUid s => {| uid := Some s; mFactor := mFactor st; distance := distance st |}
  | setMFactor n => {| uid := uid st; mFactor := n; distance := distance st |}
  | setDistance n => {| uid := uid st; mFactor := mFactor st; distance := n |}
  end.

(** The updates queued by one handler run, committed in order. *)
Definition commit (st : State) (us : list SetState) : State :=
  fold_left apply_update us st.

(** ** Measurement *)

Record DOMRect := { width : number; height : number }.

Record HTMLDivElement := { getBoundingClientRect : DOMRect }.

(** [viewRef.current] and [holderRef.current]; [None] is [null]. *)
Record Refs := {
  viewRef : option HTMLDivElement;
  holderRef : option HTMLDivElement
}.

Definition handleResize (clone isVertical : bool) (refs : Refs) : list SetState :=
  match viewRef refs, holderRef refs with
  | Some view, Some holder =>
      let viewRect := getBoundingClientRect view in
      let holderRect := getBoundingClientRect holder in
      setDistance (if isVertical then height viewRect else width viewRect)
      :: (if clone
          then [setMFactor
                  (JS.Math_ceil
                     (if isVertical
                      then JS.div (height viewRect) (height holderRect)
                      else JS.div (width viewRect) (width holderRect)))]
          else [])
  | _, _ => []
  end.

(** One measurement cycle: the handler runs on mount and on each resize
    event, against the elements attached at that moment. *)
Definition measure (props : MarqueeSliderProps) (st : State) (refs : Refs) : State :=
  commit st (handleResize (clone_of props) (isVertical (axis_of props)) refs).

(** Mount followed by resize events.  Each cycle comes with the props of
    the render whose handler runs: the effect installs a new handler when
    [clone] or [isVertical] change. *)
Definition measure_all (st : State) (cycles : list (MarqueeSliderProps * Refs)) : State :=
  fold_left (fun st cycle => measure (fst cycle) st (snd cycle)) cycles st.

(** ** Style and animation builder *)

(** [speed * (distance / balanceDistance) || 0] *)
Definition duration (speed distance balanceDistance : number) : number :=
  JS.or_else (JS.mul speed (JS.div distance balanceDistance)) JS.zero.

(** The memoised [style] object of both tracks. *)
Definition track_style (props : MarqueeSliderProps) (st : State) : CSSProperties :=
  set_prop "animation"
      (Template [Uid (uid st); Lit " ";
                 Num (duration (speed_of props) (distance st) (balanceDistance_of props));
                 Lit "s linear infinite"])
    (set_prop "flexDirection" (Text (flexDirection (axis_of props)))
       (set_prop "display" (Text "flex")
          (spread [] (default [] (style props))))).

Definition cloneStyle (a : MarqueeSliderAxis) : CSSProperties :=
  if String.eqb (axis_string a) "y" then []
  else if String.eqb (axis_string a) "-y"
       then [("position", Text "absolute"); ("top", Text "-100%")]
  else if String.eqb (axis_string a) "-x"
       then [("position", Text "absolute"); ("right", Text "100%")]
  else [].

(** The style of the duplicate track: [{ ...cloneStyle, ...style }]. *)
Definition clone_track_style (props : MarqueeSliderProps) (st : State) : CSSProperties :=
  spread (cloneStyle (axis_of props)) (track_style props st).

(** [Array(mFactor).fill(0).map((it, i) => <Fragment key={i + it.toString()}>...)]:
    the keys of the copies of the content in one track, or [None] when
    [Array] throws a [RangeError] because its argument is not an array
    length. *)
Definition mappedChildren (mFactor : number) : option (list string) :=
  match JS.to_integer mFactor with
  | Some n =>
      if (0 <=? n) && (n <? 2 ^ 32)
      then Some (map (fun i => NilEmpty.string_of_uint (Nat.to_uint i) ++ "0")
                     (seq 0 (Z.to_nat n)))
      else None
  | None => None
  end.

Definition anim (a : MarqueeSliderAxis) : string :=
  if String.eqb (axis_string a) "-x" then "translateX(100%)"
  else if String.eqb (axis_string a) "x" then "translateX(-100%)"
  else if String.eqb (axis_string a) "y" then "translateY(-100%)"
  else "translateY(100%)".

(** The text of the generated [<style>] element. *)
Definition animationStyle (uid : string) (a : MarqueeSliderAxis) (pauseOnHover : bool) : string :=
  "
      .marquee-anim:hover > .marquee-" ++ uid ++ " {
        animation-play-state: " ++ (if pauseOnHover then "paused !important" else "running") ++ ";
      }

  @keyframes " ++ uid ++ "{
    100% {
      transform: " ++ anim a ++ "
    }
  }
".

Definition gradientDirection (a : MarqueeSliderAxis) : string :=
  if String.eqb (axis_string a) "x" || String.eqb (axis_string a) "-x"
  then "to right" else "to bottom".

Definition fade_start (f : MarqueeSliderFade) : string :=
  if String.eqb (fade_string f) "start" || String.eqb (fade_string f) "both"
  then "transparent" else "black".

Definition fade_end (f : MarqueeSliderFade) : string :=
  if String.eqb (fade_string f) "end" || String.eqb (fade_string f) "both"
  then "transparent" else "black".

Definition maskImage (f : MarqueeSliderFade) (a : MarqueeSliderAxis) : string :=
  "linear-gradient(" ++ gradientDirection a ++ ", " ++ fade_start f
    ++ ", black 20%, black 80%, " ++ fade_end f ++ ")".

Definition fadeStyle (f : MarqueeSliderFade) (a : MarqueeSliderAxis) : CSSProperties :=
  [ ("WebkitMaskImage", Text (maskImage f a));
    ("WebkitMaskRepeat", Text "no-repeat");
    ("WebkitMaskSize", Text "100% 100%");
    ("maskImage", Text (maskImage f a));
    ("maskRepeat", Text "no-repeat");
    ("maskSize", Text "100% 100%") ].

(** The inline style of the viewport element. *)
Definition view_style (props : MarqueeSliderProps) : CSSProperties :=
  spread [("height", Text "100%"); ("overflow", Text "clip")]
         (match fade props with
          | Some f => fadeStyle f (axis_of props)
          | None => []
          end).

(** ** Reading a mask gradient

    What the browser makes of a [linear-gradient(...)] mask image: colour
    stops along the gradient line, the alpha of each, and linear
    interpolation in between. *)

Module CSS.

Inductive color := transparent | black.

Record color_stop := { stop_color : color; stop_at : option nat }.

Record linear_gradient := { toward : string; stops : list color_stop }.

Definition print_color (c : color) : string :=
  match c with transparent => "transparent" | black => "black" end.

Definition print_stop (s : color_stop) : string :=
  match stop_at s with
  | Some p => print_color (stop_color s) ++ " "
                ++ NilEmpty.string_of_uint (Nat.to_uint p) ++ "%"
  | None => print_color (stop_color s)
  end.

Definition print (g : linear_gradient) : string :=
  "linear-gradient(" ++ toward g ++ ", "
    ++ String.concat ", " (map print_stop (stops g)) ++ ")".

(** A mask lets through what its alpha channel covers. *)
Definition alpha (c : color) : Q :=
  match c with transparent => 0%Q | black => 1%Q end.

(** A first stop without position sits at 0%, a last one at 100%; the
    stops in between carry their position. *)
Definition position (dflt : nat) (s : color_stop) : Q :=
  inject_Z (Z.of_nat (match stop_at s with Some p => p | None => dflt end)).

Definition resolve_rest (l : list color_stop) : list (Q * Q) :=
  map (fun s => (position 100 s, alpha (stop_color s))) l.

Definition resolve (l : list color_stop) : list (Q * Q) :=
  match l with
  | [] => []
  | s :: rest => (position 0 s, alpha (stop_color s)) :: resolve_rest rest
  end.

Fixpoint alpha_after (prev : Q * Q) (rest : list (Q * Q)) (p : Q) : Q :=
  match rest with
  | [] => snd prev
  | next :: rest' =>
      if Qle_bool p (fst next)
      then if Qle_bool (fst next) (fst prev) then snd next
           else (snd prev
                 + (snd next - snd prev) * (p - fst prev) / (fst next - fst prev))%Q
      else alpha_after next rest' p
  end.

(** The alpha at [p] percent along a line of resolved stops. *)
Definition alpha_on (line : list (Q * Q)) (p : Q) : Q :=
  match line with
  | [] => 1%Q
  | s :: rest => if Qle_bool p (fst s) then snd s else alpha_after s rest p
  end.

(** The mask's alpha at [p] percent of the gradient line. *)
Definition alpha_at (g : linear_gradient) (p : Q) : Q :=
  alpha_on (resolve (stops g)) p.

End CSS.

(** ** Vocabulary of the statements *)

(** The size of an element along the scroll axis. *)
Definition scroll_size (vertical : bool) (el : HTMLDivElement) : number :=
  if vertical then height (getBoundingClientRect el)
  else width (getBoundingClientRect el).

(** The quotient whose ceiling becomes the clone factor. *)
Definition quotient (vertical : bool) (view holder : HTMLDivElement) : number :=
  JS.div (scroll_size vertical view) (scroll_size vertical holder).

(** A finite number above zero. *)
Definition positive_finite (x : number) : bool :=
  JS.is_finite x && JS.ltb JS.zero x.


(** A cycle that, if it measures with cloning on, has a quotient that is a
    finite number above zero. *)
Definition well_sized (cycle : MarqueeSliderProps * Refs) : bool :=
  let (props, refs) := cycle in
  match viewRef refs, holderRef refs with
  | Some view, Some holder =>
      negb (clone_of props)
      || positive_finite (quotient (isVertical (axis_of props)) view holder)
  | _, _ => true
  end.


Definition positive_integer (x : number) : Prop :=
  exists n, JS.to_integer x = Some n /\ 1 <= n.

(** Both elements attached. *)
Definition attached (view holder : HTMLDivElement) : Refs :=
  {| viewRef := Some view; holderRef := Some holder |}.

(** The colour stops the mask image of [fadeStyle] spells out. *)
Definition stop (c : CSS.color) (at_percent : option nat) : CSS.color_stop :=
  {| CSS.stop_color := c; CSS.stop_at := at_percent |}.

Definition start_color (f : MarqueeSliderFade) : CSS.color :=
  match f with
  | FadeStart | FadeBoth => CSS.transparent
  | FadeEnd => CSS.black
  end.

Definition end_color (f : MarqueeSliderFade) : CSS.color :=
  match f with
  | FadeEnd | FadeBoth => CSS.transparent
  | FadeStart => CSS.black
  end.

Definition mask_gradient (f : MarqueeSliderFade) (a : MarqueeSliderAxis)
  : CSS.linear_gradient :=
  {| CSS.toward := match a with
                   | AxisX | AxisNegX => "to right"
                   | AxisY | AxisNegY => "to bottom"
                   end;
     CSS.stops := [ stop (start_color f) None; stop CSS.black (Some 20%nat);
                    stop CSS.black (Some 80%nat); stop (end_color f) None ] |}.

(** The resolved stops of such a mask, with the alpha of its two ends. *)
Definition mask_line (a0 a1 : Q) : list (Q * Q) :=
  [ (0 # 1, a0); (20 # 1, 1); (80 # 1, 1); (100 # 1, a1) ]%Q.

(** ** Sample inputs *)

Definition no_props : MarqueeSliderProps :=
  {| speed := None; axis := None; clone := None; balanceDistance := None;
     className := None; style := None; pauseOnHover := None; fade := None |}.

Definition with_balance (bd : number) : MarqueeSliderProps :=
  {| speed := None; axis := None; clone := None; balanceDistance := Some bd;
     className := None; style := None; pauseOnHover := None; fade := None |}.

Definition with_fade (a : MarqueeSliderAxis) (f : option MarqueeSliderFade)
  : MarqueeSliderProps :=
  {| speed := None; axis := Some a; clone := None; balanceDistance := None;
     className := None; style := None; pauseOnHover := None; fade := f |}.

(** An element whose bounding box is [w] by [h] pixels. *)
Definition element (w h : Z) : HTMLDivElement :=
  {| getBoundingClientRect := {| width := JS.of_Z w; height := JS.of_Z h |} |}.

(** ** The rest of the component *)

(** The own keys of a style object. *)
Definition keys (o : CSSProperties) : list string := map fst o.

(** A character of a [string] stands for one code unit below 256.  White
    space that [trim] strips, among these: tab, line feed, vertical tab, form
    feed, carriage return, space and the no-break space. *)
Definition is_white (c : ascii) : bool :=
  let n := nat_of_ascii c in
  ((9 <=? n) && (n <=? 13))%nat || (n =? 32)%nat || (n =? 160)%nat.

Fixpoint trim_start (s : string) : string :=
  match s with
  | EmptyString => EmptyString
  | String c rest => if is_white c then trim_start rest else s
  end.

Fixpoint trim_end (s : string) : string :=
  match s with
  | EmptyString => EmptyString
  | String c rest =>
      match trim_end rest with
      | EmptyString => if is_white c then EmptyString else String c EmptyString
      | kept => String c kept
      end
  end.

(** [s.trim()] *)
Definition trim (s : string) : string := trim_end (trim_start s).

(** [uid ?? randomUID()], with [fresh] the identifier [randomUID] returns. *)
Definition validUid (uid : option string) (fresh : string) : string :=
  match uid with Some u => u | None => fresh end.

(** [`marquee-${validUid} ${_className}`.trim()] *)
Definition track_className (validUid : string) (props : MarqueeSliderProps) : string :=
  trim ("marquee-" ++ validUid ++ " " ++ default "" (className props)).

(** The returned tree: the elements, their refs, classes and inline styles;
    [Children] stands for the [children] prop wherever it is rendered. *)
Set Warnings "-register-all".

Inductive RefTarget := Holder | View.

Inductive node :=
| StyleElement (css : string)
| Div (ref : option RefTarget) (class : option string)
      (style : CSSProperties) (children : list node)
| FragmentElement (key : string) (children : list node)
| Children.

Definition holder_style (a : MarqueeSliderAxis) : CSSProperties :=
  [ ("visibility", Text "hidden"); ("position", Text "fixed");
    ("zIndex", Text "-999"); ("display", Text "flex");
    ("flexDirection", Text (flexDirection a)) ].

Definition anim_style (a : MarqueeSliderAxis) : CSSProperties :=
  [ ("position", Text "relative"); ("display", Text "flex");
    ("flexDirection", Text (flexDirection a)) ].

(** What one render returns, or [None] when [Array(mFactor)] throws. *)
Definition MarqueeSlider (props : MarqueeSliderProps) (st : State) (fresh : string)
  : option (list node) :=
  let a := axis_of props in
  let uid' := validUid (uid st) fresh in
  match mappedChildren (mFactor st) with
  | None => None
  | Some ks =>
      let copies := map (fun k => FragmentElement k [Children]) ks in
      let cls := track_className uid' props in
      Some [ StyleElement (animationStyle uid' a (pauseOnHover_of props));
             Div (Some Holder) None (holder_style a) [Children];
             Div (Some View) None (view_style props)
               [ Div None (Some "marquee-anim") (anim_style a)
                   [ Div None (Some cls) (track_style props st) copies;
                     Div None (Some cls) (clone_track_style props st) copies ] ] ]
  end.

(** How many times the content is rendered under a node. *)
Fixpoint content_copies (n : node) : nat :=
  match n with
  | Children => 1
  | StyleElement _ => 0
  | Div _ _ _ cs | FragmentElement _ cs => list_sum (map content_copies cs)
  end.


(** The white space that separates the classes of a [class] attribute:
    tab, line feed, form feed, carriage return and space. *)
Definition is_space (c : ascii) : bool :=
  let n := nat_of_ascii c in
  (n =? 9)%nat || (n =? 10)%nat || (n =? 12)%nat || (n =? 13)%nat || (n =? 32)%nat.

(** The first class of a [class] attribute: what precedes the first
    separator. *)
Fixpoint first_token (s : string) : string :=
  match s with
  | EmptyString => EmptyString
  | String c rest => if is_space c then EmptyString else String c (first_token rest)
  end.

(** No character of [s] is white space for [trim]. *)
Fixpoint no_white (s : string) : bool :=
  match s with
  | EmptyString => true
  | String c rest => negb (is_white c) && no_white rest
  end.

(** The animation name a style's [animation] value starts with. *)
Definition animation_name (o : CSSProperties) : option chunk :=
  match get_prop "animation" o with
  | Some (Template (name :: _)) => Some name
  | _ => None
  end.

(** *** Effects: the resize listener

    The second effect of the component calls [handleResize] once, adds it to
    the window's "resize" listeners and returns a clean-up that removes it.
    React runs the effect after the first render, and again, after the
    clean-up of the previous run, when [clone] or [isVertical] changed; it
    runs the clean-up at unmount.  Every commit of new state is followed by
    a render; a render that throws unmounts the component, which has no
    error boundary of its own, and so runs the clean-up too. *)

(** One [handleResize] closure, with the values it captured. *)
Record Handler := { hid : nat; h_clone : bool; h_vertical : bool }.

Record World := {
  listeners : list Handler;                          (* of the window *)
  next_id : nat;
  mounted : option (MarqueeSliderProps * Handler);   (* props, installed handler *)
  state : State
}.

Definition addEventListener (h : Handler) (l : list Handler) : list Handler :=
  app l [h].

Definition removeEventListener (h : Handler) (l : list Handler) : list Handler :=
  filter (fun x => negb (Nat.eqb (hid x) (hid h))) l.

(** The effect body: [handleResize(); window.addEventListener(...)]. *)
Definition cloning_effect (props : MarqueeSliderProps) (refs : Refs) (w : World) : World :=
  let h := {| hid := next_id w; h_clone := clone_of props;
              h_vertical := isVertical (axis_of props) |} in
  {| listeners := addEventListener h (listeners w);
     next_id := S (next_id w);
     mounted := Some (props, h);
     state := commit (state w) (handleResize (h_clone h) (h_vertical h) refs) |}.

(** The clean-up the effect returned. *)
Definition cleanup (h : Handler) (w : World) : World :=
  {| listeners := removeEventListener h (listeners w);
     next_id := next_id w; mounted := None; state := state w |}.

(** The one expression of a render that can throw: [Array(mFactor)]. *)
Definition render_throws (st : State) : bool :=
  match mappedChildren (mFactor st) with
  | Some _ => false
  | None => true
  end.

(** The render that follows a commit: when it throws, the component is
    unmounted and the clean-up of the effect runs. *)
Definition rerender (w : World) : World :=
  match mounted w with
  | Some (_, h) => if render_throws (state w) then cleanup h w else w
  | None => w
  end.

(** First render (of the initial state, [mFactor] 1) and its two effects,
    [setUid(randomUID())] and the measuring effect, then the render of the
    state they stored. *)
Definition mount (props : MarqueeSliderProps) (fresh : string) (refs : Refs) : World :=
  rerender
    (cloning_effect props refs
       {| listeners := []; next_id := 0; mounted := None;
          state := commit (initial_state props) [setUid fresh] |}).

Inductive Event :=
| Rerender (props : MarqueeSliderProps) (refs : Refs)
| Resize (refs : Refs)
| Unmount.

Definition same_deps (p q : MarqueeSliderProps) : bool :=
  Bool.eqb (clone_of p) (clone_of q)
  && Bool.eqb (isVertical (axis_of p)) (isVertical (axis_of q)).

(** The window fires "resize": every listener runs. *)
Definition dispatch (refs : Refs) (w : World) : World :=
  {| listeners := listeners w; next_id := next_id w; mounted := mounted w;
     state := fold_left
                (fun st h => commit st (handleResize (h_clone h) (h_vertical h) refs))
                (listeners w) (state w) |}.

Definition step (w : World) (e : Event) : World :=
  match e with
  | Rerender props refs =>
      match mounted w with
      | Some (old, h) =>
          if same_deps old props
          then {| listeners := listeners w; next_id := next_id w;
                  mounted := Some (props, h); state := state w |}
          else rerender (cloning_effect props refs (cleanup h w))
      | None => w
      end
  | Resize refs => rerender (dispatch refs w)
  | Unmount =>
      match mounted w with
      | Some (_, h) => cleanup h w
      | None => w
      end
  end.

Definition run (w : World) (events : list Event) : World := fold_left step events w.

(** The measurement cycles a history of events amounts to: each run of
    [handleResize] with the props current at that moment. *)
Fixpoint cycles_of (current : option MarqueeSliderProps) (events : list Event)
  : list (MarqueeSliderProps * Refs) :=
  match events with
  | [] => []
  | Rerender props refs :: rest =>
      match current with
      | Some old =>
          if same_deps old props then cycles_of (Some props) rest
          else (props, refs) :: cycles_of (Some props) rest
      | None => cycles_of None rest
      end
  | Resize refs :: rest =>
      match current with
      | Some p => (p, refs) :: cycles_of current rest
      | None => cycles_of None rest
      end
  | Unmount :: rest => cycles_of None rest
  end.

(** The chain of cycles as a mounted component lives it: it ends with the
    first measurement whose state the following render cannot show. *)
Fixpoint measure_until_throw (st : State) (cycles : list (MarqueeSliderProps * Refs))
  : State :=
  match cycles with
  | [] => st
  | (p, r) :: rest =>
      let st' := measure p st r in
      if render_throws st' then st' else measure_until_throw st' rest
  end.

(** What holds of the window's listeners between events: while the component
    is mounted there is exactly the handler of the latest effect run, and it
    captured the current [clone] and [isVertical]; after unmount there is
    none. *)
Definition settled_world (w : World) : Prop :=
  match mounted w with
  | Some (p, h) =>
      listeners w = [h] /\ h_clone h = clone_of p
      /\ h_vertical h = isVertical (axis_of p)
  | None => listeners w = []
  end.

(** *** Identifiers *)

(** [Math.floor], after the language standard. *)
Definition Math_floor (x : number) : number :=
  match x with
  | S754_finite s m (Zneg k) =>
      let q := Z.shiftr (Zpos m) (Zpos k) in
      if Z.eqb (Z.shiftl q (Zpos k)) (Zpos m) then x
      else if s then JS.of_Z (- (q + 1))
           else (if Z.eqb q 0 then JS.zero else JS.of_Z q)
  | _ => x
  end.

(** The decimal digits of an integer. *)
Definition decimal (n : Z) : string :=
  (if n <? 0 then "-" else "") ++ NilEmpty.string_of_uint (N.to_uint (Z.abs_N n)).

(** [String(x)] for a number: covered are [NaN], the infinities and the
    integers below 10^21 in magnitude, which print as their digits; a number
    with a fractional part or a larger one is not covered ([None]). *)
Definition Number_toString (x : number) : option string :=
  match x with
  | S754_nan => Some "NaN"
  | S754_infinity false => Some "Infinity"
  | S754_infinity true => Some "-Infinity"
  | _ =>
      match JS.to_integer x with
      | Some n => if Z.abs n <? 10 ^ 21 then Some (decimal n) else None
      | None => None
      end
  end.

(** [parts.join("")] over the printed parts; [None] as soon as one is. *)
Fixpoint join_empty (parts : list (option string)) : option string :=
  match parts with
  | [] => Some ""
  | None :: _ => None
  | Some p :: rest =>
      match join_empty rest with
      | Some s => Some (p ++ s)
      | None => None
      end
  end.

(** [randomUID], with [random i] the value the [i]-th call of
    [Math.random()] returns. *)
Definition randomUID (random : nat -> number) : option string :=
  match join_empty
          (map (fun i => Number_toString
                           (Math_floor (JS.mul (random i) (JS.of_Z 1000))))
               (seq 0 10)) with
  | Some digits => Some ("anim-" ++ digits)
  | None => None
  end.

(** What [Math.random()] may return: a number from +0 up to, not
    including, 1. *)
Definition unit_interval (x : number) : bool :=
  JS.valid x && JS.leb JS.zero x && JS.ltb x JS.one.

Definition is_digit (c : ascii) : bool :=
  ((48 <=? nat_of_ascii c) && (nat_of_ascii c <=? 57))%nat.

Fixpoint all_digits (s : string) : bool :=
  match s with
  | EmptyString => true
  | String c rest => is_digit c && all_digits rest
  end.

Definition sample_random (i : nat) : number :=
  JS.div (JS.of_Z (Z.of_nat (i * 111))) (JS.of_Z 1000).

(** ** The model at work *)

Example ceil_of_3_2 : JS.Math_ceil (JS.div (JS.of_Z 16) (JS.of_Z 5)) = JS.of_Z 4.
Proof. reflexivity. Qed.

Example ceil_of_minus_half :
  JS.Math_ceil (JS.div (JS.of_Z (-1)) (JS.of_Z 2)) = S754_zero true.
Proof. reflexivity. Qed.

Example ceil_of_integer : JS.Math_ceil (JS.of_Z 7) = JS.of_Z 7.
Proof. reflexivity. Qed.

Example division_by_zero :
  JS.div (JS.of_Z 800) JS.zero = JS.Infinity /\ JS.div JS.zero JS.zero = JS.NaN.
Proof. split; reflexivity. Qed.

Example default_duration :
  duration (speed_of no_props) (JS.of_Z 800) (balanceDistance_of no_props)
  = JS.of_Z 100.
Proof. reflexivity. Qed.

Example three_copies : mappedChildren (JS.of_Z 3) = Some ["00"; "10"; "20"].
Proof. reflexivity. Qed.

Example vertical_axes :
  map isVertical [AxisX; AxisY; AxisNegX; AxisNegY] = [false; true; false; true].
Proof. reflexivity. Qed.

Example both_faded_mask :
  maskImage FadeBoth AxisY
  = "linear-gradient(to bottom, transparent, black 20%, black 80%, transparent)".
Proof. reflexivity. Qed.

(** A [style] prop is kept, with the computed keys written over it. *)
Example style_prop_overridden :
  map fst (track_style
             {| speed := None; axis := None; clone := None;
                balanceDistance := None; className := None;
                style := Some [("animation", Text "none"); ("color", Text "red")];
                pauseOnHover := None; fade := None |}
             (initial_state no_props))
  = ["animation"; "color"; "display"; "flexDirection"].
Proof. reflexivity. Qed.

(** ** Facts about binary64 arithmetic *)

Module Binary64.

(** *** Signs: rounding a non-negative mantissa never yields [NaN]. *)

Lemma shr_1_nonneg mrs : 0 <= shr_m mrs -> 0 <= shr_m (shr_1 mrs).
Proof.
  destruct mrs as [m r s]; simpl.
  destruct m as [|p|p]; [easy| |lia].
  intros _. destruct p; simpl; lia.
Qed.

Lemma iter_shr_1_nonneg n mrs :
  0 <= shr_m mrs -> 0 <= shr_m (iter_pos shr_1 n mrs).
Proof.
  revert mrs; induction n as [n IH|n IH|]; intros mrs H; simpl.
  - apply IH, IH, shr_1_nonneg, H.
  - apply IH, IH, H.
  - apply shr_1_nonneg, H.
Qed.

Lemma shr_fexp_nonneg m e l :
  0 <= m -> 0 <= shr_m (fst (shr_fexp JS.prec JS.emax m e l)).
Proof.
  intros H. unfold shr_fexp, shr.
  assert (Hr : 0 <= shr_m (shr_record_of_loc m l)).
  { destruct l as [|[ | | ]]; simpl; exact H. }
  destruct (fexp JS.prec JS.emax (Zdigits2 m + e) - e); simpl; auto.
  apply iter_shr_1_nonneg, Hr.
Qed.

Lemma round_nearest_even_nonneg m l : 0 <= m -> 0 <= round_nearest_even m l.
Proof.
  intros H. destruct l as [|[ | | ]]; simpl; try lia.
  destruct (Z.even m); lia.
Qed.

Lemma binary_round_aux_signed s m e l :
  0 <= m -> JS.signed s (binary_round_aux JS.prec JS.emax s m e l).
Proof.
  intros H. unfold binary_round_aux.
  pose proof (shr_fexp_nonneg m e l H) as H1.
  destruct (shr_fexp JS.prec JS.emax m e l) as [mrs' e'].
  simpl in H1.
  pose proof (shr_fexp_nonneg _ e' loc_Exact
                (round_nearest_even_nonneg _ (loc_of_shr_record mrs') H1)) as H2.
  destruct (shr_fexp JS.prec JS.emax _ e' loc_Exact) as [mrs'' e''].
  simpl in H2.
  destruct (shr_m mrs'') as [|p|p]; [constructor| |lia].
  destruct (e'' <=? JS.emax - JS.prec); constructor.
Qed.

Lemma mul_signed sx mx ex sy my ey :
  JS.signed (xorb sx sy) (JS.mul (S754_finite sx mx ex) (S754_finite sy my ey)).
Proof. apply binary_round_aux_signed. lia. Qed.

Lemma div_signed sx mx ex sy my ey :
  JS.signed (xorb sx sy) (JS.div (S754_finite sx mx ex) (S754_finite sy my ey)).
Proof.
  unfold JS.div, SFdiv, SFdiv_core_binary.
  set (m' := match _ with
             | Z0 => Zpos mx
             | Zpos _ => Z.shiftl (Zpos mx) _
             | Zneg _ => 0
             end).
  assert (Hm : 0 <= m').
  { subst m'. destruct (_ - _ - _); try lia. apply Z.shiftl_nonneg. lia. }
  pose proof (Z_div_mod m' (Zpos my) eq_refl) as Hd.
  destruct (Z.div_eucl m' (Zpos my)) as [q r].
  apply binary_round_aux_signed. nia.
Qed.

(** *** Digits *)

Lemma digits2_size p : digits2_pos p = Pos.size p.
Proof. induction p; simpl; congruence. Qed.

Lemma digits2_bounds p :
  2 ^ (Zpos (digits2_pos p) - 1) <= Zpos p < 2 ^ Zpos (digits2_pos p).
Proof.
  rewrite digits2_size. split.
  - pose proof (Pos.size_le p) as H.
    apply Pos2Z.pos_le_pos in H. rewrite Pos2Z.inj_pow in H.
    change (Zpos p~0) with (2 * Zpos p) in H.
    replace (Zpos (Pos.size p)) with (Z.succ (Zpos (Pos.size p) - 1)) in H by lia.
    rewrite Z.pow_succ_r in H by lia. lia.
  - pose proof (Pos.size_gt p) as H.
    apply Pos2Z.pos_lt_pos in H. rewrite Pos2Z.inj_pow in H. exact H.
Qed.

Lemma digits2_le p q :
  (p <= q)%positive -> (digits2_pos p <= digits2_pos q)%positive.
Proof.
  intros H. pose proof (digits2_bounds p) as [Hp _].
  pose proof (digits2_bounds q) as [_ Hq].
  assert (Hlt : 2 ^ (Zpos (digits2_pos p) - 1) < 2 ^ Zpos (digits2_pos q)) by lia.
  apply Z.pow_lt_mono_r_iff in Hlt; lia.
Qed.

Lemma digits2_iter_xO k p :
  Zpos (digits2_pos (Nat.iter k xO p)) = Zpos (digits2_pos p) + Z.of_nat k.
Proof.
  induction k as [|k IH]; simpl; [lia|].
  rewrite Pos2Z.inj_succ, IH. lia.
Qed.

Lemma Zpos_iter_xO k p : Zpos (Nat.iter k xO p) = Zpos p * 2 ^ Z.of_nat k.
Proof.
  induction k as [|k IH]; [simpl; lia|].
  rewrite Nat2Z.inj_succ, Z.pow_succ_r by lia.
  simpl Nat.iter. rewrite Pos2Z.inj_xO, IH. lia.
Qed.

Lemma valid_digits s m e :
  JS.valid (S754_finite s m e) = true -> Zpos (digits2_pos m) <= 53.
Proof.
  unfold JS.valid, valid_binary, bounded, canonical_mantissa, fexp, JS.prec.
  intros H. apply andb_true_iff in H as [Hc _]. apply Z.eqb_eq in Hc. lia.
Qed.

(** *** Shifting right *)

Lemma iter_pos_nat {A} (f : A -> A) n x :
  iter_pos f n x = Nat.iter (Pos.to_nat n) f x.
Proof.
  revert x; induction n as [n IH|n IH|]; intros x; cbn [iter_pos].
  - rewrite !IH, Pos2Nat.inj_xI, <- Nat.iter_add, <- Nat.iter_succ_r.
    f_equal. lia.
  - rewrite !IH, Pos2Nat.inj_xO, <- Nat.iter_add. f_equal. lia.
  - reflexivity.
Qed.

Lemma iter_shr_1_xO k p :
  Nat.iter k shr_1 (Build_shr_record (Zpos (Nat.iter k xO p)) false false)
  = Build_shr_record (Zpos p) false false.
Proof.
  induction k as [|k IH]; [reflexivity|].
  rewrite Nat.iter_succ_r. simpl. exact IH.
Qed.

Lemma shr_fexp_canonical m e :
  canonical_mantissa JS.prec JS.emax m e = true ->
  shr_fexp JS.prec JS.emax (Zpos m) e loc_Exact
  = (Build_shr_record (Zpos m) false false, e).
Proof.
  unfold canonical_mantissa, shr_fexp. intros Hc. apply Z.eqb_eq in Hc.
  cbn [Zdigits2]. rewrite Hc, Z.sub_diag. reflexivity.
Qed.

Lemma shr_fexp_shifted m e k :
  canonical_mantissa JS.prec JS.emax m e = true ->
  shr_fexp JS.prec JS.emax (Zpos (Nat.iter (Pos.to_nat k) xO m)) (e - Zpos k) loc_Exact
  = (Build_shr_record (Zpos m) false false, e).
Proof.
  unfold canonical_mantissa, shr_fexp. intros Hc. apply Z.eqb_eq in Hc.
  cbn [Zdigits2]. rewrite digits2_iter_xO, positive_nat_Z.
  replace (Zpos (digits2_pos m) + Zpos k + (e - Zpos k))
    with (Zpos (digits2_pos m) + e) by lia.
  rewrite Hc. replace (e - (e - Zpos k)) with (Zpos k) by lia.
  cbn [shr shr_record_of_loc].
  rewrite iter_pos_nat, iter_shr_1_xO. f_equal. lia.
Qed.

(** *** Exact results *)

(** Rounding leaves a canonical mantissa alone. *)
Lemma round_canonical s m e :
  bounded JS.prec JS.emax m e = true ->
  binary_round_aux JS.prec JS.emax s (Zpos m) e loc_Exact = S754_finite s m e.
Proof.
  unfold bounded. intros H. apply andb_true_iff in H as [Hc Hb].
  unfold binary_round_aux. rewrite (shr_fexp_canonical _ _ Hc).
  cbn [shr_m loc_of_shr_record round_nearest_even].
  rewrite (shr_fexp_canonical _ _ Hc). cbn [shr_m]. rewrite Hb. reflexivity.
Qed.

(** A canonical mantissa shifted left by [k] bits rounds back to itself. *)
Lemma round_shifted s m e k :
  bounded JS.prec JS.emax m e = true ->
  binary_round_aux JS.prec JS.emax s
    (Zpos (Nat.iter (Pos.to_nat k) xO m)) (e - Zpos k) loc_Exact
  = S754_finite s m e.
Proof.
  unfold bounded. intros H. apply andb_true_iff in H as [Hc Hb].
  unfold binary_round_aux. rewrite (shr_fexp_shifted _ _ _ Hc).
  cbn [shr_m loc_of_shr_record round_nearest_even].
  rewrite (shr_fexp_canonical _ _ Hc). cbn [shr_m]. rewrite Hb. reflexivity.
Qed.

(** [x * 1] is [x]. *)
Lemma mul_one x : JS.valid x = true -> JS.mul x JS.one = x.
Proof.
  destruct x as [s|s| |s m e]; intros H;
    try reflexivity; try (destruct s; reflexivity).
  unfold JS.mul, JS.one, SFmul. rewrite xorb_false_r.
  rewrite Pos.mul_comm.
  change (4503599627370496 * m)%positive with (Nat.iter (Pos.to_nat 52) xO m).
  change (e + -52) with (e - Zpos 52).
  apply round_shifted. exact H.
Qed.

(** [x / x] is [1] for a finite [x] other than zero. *)
Lemma div_self s m e :
  JS.div (S754_finite s m e) (S754_finite s m e) = JS.one.
Proof.
  unfold JS.div, SFdiv, SFdiv_core_binary.
  rewrite !Z.sub_diag.
  change (Z.min (fexp JS.prec JS.emax 0) 0) with (-53).
  change (0 - -53) with 53.
  cbv iota.
  rewrite Z.shiftl_mul_pow2 by lia.
  assert (Hd : Z.div_eucl (Zpos m * 2 ^ 53) (Zpos m) = (2 ^ 53, 0)).
  { pose proof (Z_div_mod (Zpos m * 2 ^ 53) (Zpos m) eq_refl) as H.
    destruct (Z.div_eucl _ _) as [q r].
    assert (q = 2 ^ 53) by nia. subst q. f_equal. lia. }
  rewrite Hd.
  replace (new_location (Zpos m) 0) with loc_Exact.
  2:{ unfold new_location, new_location_even, new_location_odd.
      destruct (Z.even _); reflexivity. }
  rewrite xorb_nilpotent. vm_compute. reflexivity.
Qed.

(** *** Rounding yields numbers that exist *)

Lemma shr_1_div2 mrs : 0 <= shr_m mrs -> shr_m (shr_1 mrs) = shr_m mrs / 2.
Proof.
  destruct mrs as [m r s]; cbn [shr_m shr_1].
  destruct m as [|p|p]; [reflexivity| |lia]. intros _.
  destruct p as [p|p|]; cbn [shr_m].
  - rewrite Pos2Z.inj_xI. apply (Z.div_unique _ 2 _ 1); lia.
  - rewrite Pos2Z.inj_xO. apply (Z.div_unique _ 2 _ 0); lia.
  - reflexivity.
Qed.

Lemma iter_shr_1_div n mrs :
  0 <= shr_m mrs ->
  shr_m (Nat.iter n shr_1 mrs) = shr_m mrs / 2 ^ Z.of_nat n.
Proof.
  intros H. induction n as [|n IH].
  - cbn. rewrite Z.div_1_r. reflexivity.
  - change (Nat.iter (S n) shr_1 mrs) with (shr_1 (Nat.iter n shr_1 mrs)).
    rewrite shr_1_div2.
    + rewrite IH, Nat2Z.inj_succ, Z.pow_succ_r, Z.div_div by lia.
      f_equal. lia.
    + rewrite IH. apply Z.div_pos; [exact H|]. apply Z.pow_pos_nonneg; lia.
Qed.

Lemma shr_record_of_loc_m m l : shr_m (shr_record_of_loc m l) = m.
Proof. destruct l as [|[ | | ]]; reflexivity. Qed.

(** The mantissa and exponent [shr_fexp] returns. *)
Lemma shr_fexp_result m e l :
  0 <= m ->
  let n := fexp JS.prec JS.emax (Zdigits2 m + e) - e in
  shr_m (fst (shr_fexp JS.prec JS.emax m e l)) = m / 2 ^ Z.max 0 n
  /\ snd (shr_fexp JS.prec JS.emax m e l) = e + Z.max 0 n.
Proof.
  intros Hm n. unfold shr_fexp, shr. fold n.
  destruct n as [|p|p]; cbn [fst snd].
  - rewrite shr_record_of_loc_m, Z.div_1_r. split; [reflexivity|lia].
  - rewrite iter_pos_nat, iter_shr_1_div, shr_record_of_loc_m, positive_nat_Z
      by (rewrite shr_record_of_loc_m; exact Hm).
    split; [reflexivity|lia].
  - rewrite shr_record_of_loc_m, Z.div_1_r. split; [reflexivity|lia].
Qed.

Lemma Zdigits2_bounds m :
  0 < m -> 2 ^ (Zdigits2 m - 1) <= m < 2 ^ Zdigits2 m.
Proof. destruct m as [|p|p]; try lia. intros _. apply digits2_bounds. Qed.

Lemma Zdigits2_unique m d :
  2 ^ (d - 1) <= m < 2 ^ d -> 0 < d -> Zdigits2 m = d.
Proof.
  intros [Hlo Hhi] Hd.
  assert (Hm : 0 < m).
  { pose proof (Z.pow_pos_nonneg 2 (d - 1) ltac:(lia) ltac:(lia)). lia. }
  pose proof (Zdigits2_bounds m Hm) as [Blo Bhi].
  assert (Hdm : 0 < Zdigits2 m) by (destruct m; cbn; lia).
  assert (H1 : 2 ^ (d - 1) < 2 ^ Zdigits2 m) by lia.
  assert (H2 : 2 ^ (Zdigits2 m - 1) < 2 ^ d) by lia.
  apply Z.pow_lt_mono_r_iff in H1; [|lia|lia].
  apply Z.pow_lt_mono_r_iff in H2; [|lia|lia]. lia.
Qed.

Lemma Zdigits2_nonneg m : 0 <= Zdigits2 m.
Proof. destruct m; cbn; lia. Qed.

(** Dropping [n] low bits drops [n] digits. *)
Lemma Zdigits2_div_pow2 m n :
  0 < m -> 0 <= n < Zdigits2 m -> Zdigits2 (m / 2 ^ n) = Zdigits2 m - n.
Proof.
  intros Hm Hn. pose proof (Zdigits2_bounds m Hm) as [Blo Bhi].
  pose proof (Z.pow_pos_nonneg 2 n ltac:(lia) ltac:(lia)) as Hp.
  apply Zdigits2_unique; [|lia]. split.
  - apply Z.div_le_lower_bound; [lia|].
    rewrite <- Z.pow_add_r by lia.
    replace (n + (Zdigits2 m - n - 1)) with (Zdigits2 m - 1) by lia. exact Blo.
  - apply Z.div_lt_upper_bound; [lia|].
    rewrite <- Z.pow_add_r by lia.
    replace (n + (Zdigits2 m - n)) with (Zdigits2 m) by lia. exact Bhi.
Qed.

Lemma div_pow2_small m n : 0 <= m -> Zdigits2 m <= n -> m / 2 ^ n = 0.
Proof.
  intros Hm Hn. apply Z.div_small. split; [exact Hm|].
  destruct (Z.eq_dec m 0) as [->|Hne].
  - apply Z.pow_pos_nonneg; [lia|]. pose proof (Zdigits2_nonneg 0). lia.
  - pose proof (Zdigits2_bounds m ltac:(lia)) as [_ Bhi].
    eapply Z.lt_le_trans; [exact Bhi|].
    apply Z.pow_le_mono_r; [lia|exact Hn].
Qed.

Lemma fexp_ge_emin x : emin JS.prec JS.emax <= fexp JS.prec JS.emax x.
Proof. unfold fexp. lia. Qed.

Lemma fexp_mono x y : x <= y -> fexp JS.prec JS.emax x <= fexp JS.prec JS.emax y.
Proof. unfold fexp. lia. Qed.

Lemma Zdigits2_mono m n : 0 <= m <= n -> Zdigits2 m <= Zdigits2 n.
Proof.
  intros [Hm Hn]. destruct m as [|p|p]; [apply Zdigits2_nonneg| |lia].
  destruct n as [|q|q]; try lia. cbn [Zdigits2].
  apply Pos2Z.pos_le_pos, digits2_le. exact Hn.
Qed.

Lemma shr_fexp_settled m e l :
  0 <= m -> e <= fexp JS.prec JS.emax (Zdigits2 m + e) ->
  JS.settled (shr_m (fst (shr_fexp JS.prec JS.emax m e l)))
          (snd (shr_fexp JS.prec JS.emax m e l)).
Proof.
  intros Hm Hpre.
  destruct (shr_fexp_result m e l Hm) as [Hr He]. rewrite Hr, He. clear Hr He.
  set (n := fexp JS.prec JS.emax (Zdigits2 m + e) - e) in *.
  rewrite Z.max_r by lia.
  replace (e + n) with (fexp JS.prec JS.emax (Zdigits2 m + e)) by (unfold n; lia).
  destruct (Z.lt_ge_cases n (Zdigits2 m)) as [Hlt|Hge].
  - left. assert (H0 : 0 < m).
    { destruct (Z.eq_dec m 0) as [->|]; [cbn in Hlt; lia|lia]. }
    pose proof (Zdigits2_div_pow2 m n H0 ltac:(lia)) as Hd.
    split.
    + assert (0 <= m / 2 ^ n)
        by (apply Z.div_pos; [lia|apply Z.pow_pos_nonneg; lia]).
      destruct (Z.eq_dec (m / 2 ^ n) 0) as [E|]; [|lia].
      rewrite E in Hd. cbn in Hd. lia.
    + rewrite Hd. f_equal. unfold n. lia.
  - right. split; [apply div_pow2_small; lia|].
    unfold n in Hge. unfold fexp, JS.prec in *. lia.
Qed.

Lemma round_nearest_even_range m l :
  m <= round_nearest_even m l <= m + 1.
Proof.
  destruct l as [|[ | | ]]; cbn; try lia. destruct (Z.even m); lia.
Qed.

(** Rounding yields a number that exists. *)
Lemma binary_round_aux_valid s m e l :
  0 <= m -> e <= fexp JS.prec JS.emax (Zdigits2 m + e) ->
  JS.valid (binary_round_aux JS.prec JS.emax s m e l) = true.
Proof.
  intros Hm Hpre. unfold binary_round_aux.
  pose proof (shr_fexp_settled m e l Hm Hpre) as H1.
  destruct (shr_fexp JS.prec JS.emax m e l) as [mrs1 e1]. cbn [fst snd] in H1.
  pose proof (round_nearest_even_range (shr_m mrs1) (loc_of_shr_record mrs1)) as Hr.
  set (m1 := round_nearest_even (shr_m mrs1) (loc_of_shr_record mrs1)) in *.
  assert (Hm1 : 0 <= m1) by (destruct H1 as [[? _]|[? _]]; lia).
  assert (Hpre1 : e1 <= fexp JS.prec JS.emax (Zdigits2 m1 + e1)).
  { destruct H1 as [[Hpos Hc]|[_ ->]]; [|apply fexp_ge_emin].
    rewrite <- Hc at 1. apply fexp_mono.
    pose proof (Zdigits2_mono (shr_m mrs1) m1 ltac:(lia)). lia. }
  pose proof (shr_fexp_settled m1 e1 loc_Exact Hm1 Hpre1) as H2.
  destruct (shr_fexp JS.prec JS.emax m1 e1 loc_Exact) as [mrs2 e2].
  cbn [fst snd] in H2.
  destruct (shr_m mrs2) as [|p|p]; try reflexivity.
  destruct (e2 <=? JS.emax - JS.prec) eqn:Hb; [|reflexivity].
  unfold JS.valid, valid_binary, bounded, canonical_mantissa. rewrite Hb.
  destruct H2 as [[_ Hc]|[? _]]; [|lia].
  cbn [Zdigits2] in Hc. rewrite Hc, Z.eqb_refl. reflexivity.
Qed.

(** The quotient of the mantissas has no digit to spare either. *)
Lemma div_core_settled m1 e1 m2 e2 :
  let '(q, e', _) := SFdiv_core_binary JS.prec JS.emax (Zpos m1) e1 (Zpos m2) e2 in
  0 <= q /\ e' <= fexp JS.prec JS.emax (Zdigits2 q + e').
Proof.
  unfold SFdiv_core_binary. cbn [Zdigits2].
  set (d1 := Zpos (digits2_pos m1)). set (d2 := Zpos (digits2_pos m2)).
  set (e' := Z.min (fexp JS.prec JS.emax (d1 + e1 - (d2 + e2))) (e1 - e2)).
  set (sh := e1 - e2 - e').
  assert (Hs : 0 <= sh) by (unfold sh, e'; lia).
  set (a := match sh with
            | 0 => Zpos m1
            | Zpos _ => Z.shiftl (Zpos m1) sh
            | Zneg _ => 0
            end).
  assert (Ha : a = Zpos m1 * 2 ^ sh).
  { unfold a. destruct sh as [|p|p]; [lia| |lia].
    apply Z.shiftl_mul_pow2. lia. }
  clearbody a. subst a.
  pose proof (Z_div_mod (Zpos m1 * 2 ^ sh) (Zpos m2) eq_refl) as Hdiv.
  pose proof (Z.pow_pos_nonneg 2 sh ltac:(lia) Hs) as Hp.
  destruct (Z.div_eucl (Zpos m1 * 2 ^ sh) (Zpos m2)) as [q r].
  destruct Hdiv as [Heq Hr].
  assert (Hq : 0 <= q) by nia.
  split; [exact Hq|].
  pose proof (digits2_bounds m1) as [B1 _]. pose proof (digits2_bounds m2) as [_ B2].
  fold d1 in B1. fold d2 in B2.
  destruct (Z.lt_ge_cases 0 (d1 + sh - d2)) as [Hk|Hk].
  - (* the quotient has at least [d1 + sh - d2] digits *)
    assert (Hlow : 2 ^ (d1 + sh - d2 - 1) <= q).
    { assert (Hx : 2 ^ (d1 + sh - d2 - 1) * 2 ^ d2 <= Zpos m1 * 2 ^ sh).
      { rewrite <- Z.pow_add_r by (unfold d1, d2 in *; lia).
        replace (d1 + sh - d2 - 1 + d2) with ((d1 - 1) + sh) by lia.
        rewrite Z.pow_add_r by (unfold d1; lia).
        apply Z.mul_le_mono_nonneg_r; lia. }
      pose proof (Z.pow_pos_nonneg 2 (d1 + sh - d2 - 1) ltac:(lia) ltac:(lia)).
      nia. }
    assert (Hdq : d1 + sh - d2 <= Zdigits2 q).
    { assert (Hq0 : 0 < q).
      { pose proof (Z.pow_pos_nonneg 2 (d1 + sh - d2 - 1) ltac:(lia) ltac:(lia)). lia. }
      pose proof (Zdigits2_bounds q Hq0) as [_ Bq].
      assert (Hlt : 2 ^ (d1 + sh - d2 - 1) < 2 ^ Zdigits2 q) by lia.
      apply Z.pow_lt_mono_r_iff in Hlt; [lia|lia|apply Zdigits2_nonneg]. }
    apply Z.le_trans with (fexp JS.prec JS.emax (d1 + e1 - (d2 + e2))); [unfold e'; lia|].
    apply fexp_mono. unfold sh in Hdq. lia.
  - (* the exponent is already at or below the least one *)
    apply Z.le_trans with (emin JS.prec JS.emax); [|apply fexp_ge_emin].
    unfold sh, e' in *. unfold fexp, JS.prec in *. lia.
Qed.

Lemma div_valid x y : JS.valid (JS.div x y) = true.
Proof.
  destruct x as [sx|sx| |sx mx ex], y as [sy|sy| |sy my ey]; try reflexivity.
  unfold JS.div, SFdiv.
  pose proof (div_core_settled mx ex my ey) as H.
  destruct (SFdiv_core_binary JS.prec JS.emax (Zpos mx) ex (Zpos my) ey)
    as [[q e'] l].
  apply binary_round_aux_valid; apply H.
Qed.

(** *** Integers *)

Lemma shiftr_iter_xO k n :
  Z.shiftr (Zpos (Nat.iter (Pos.to_nat k) xO n)) (Zpos k) = Zpos n.
Proof.
  rewrite Zpos_iter_xO, positive_nat_Z, Z.shiftr_div_pow2 by lia.
  apply Z.div_mul. pose proof (Z.pow_pos_nonneg 2 (Zpos k)). lia.
Qed.

(** An integer of at most 53 bits is a number, left-aligned in the mantissa. *)
Lemma binary_round_integer s n :
  Zpos (digits2_pos n) <= 53 ->
  binary_round JS.prec JS.emax s n 0 =
    match Zpos (digits2_pos n) - 53 with
    | Zneg k => S754_finite s (Nat.iter (Pos.to_nat k) xO n) (Zneg k)
    | _ => S754_finite s n 0
    end.
Proof.
  intros Hd.
  unfold binary_round, shl_align.
  assert (Hf : fexp JS.prec JS.emax (Zpos (digits2_pos n) + 0)
               = Zpos (digits2_pos n) - 53).
  { unfold fexp, emin, JS.prec, JS.emax. lia. }
  rewrite Hf, Z.sub_0_r.
  destruct (Zpos (digits2_pos n) - 53) as [|k|k] eqn:Hk; try lia.
  - apply round_canonical. unfold bounded, canonical_mantissa.
    replace (Zpos (digits2_pos n)) with 53 by lia. reflexivity.
  - rewrite Pos2Nat.inj_iter. apply round_canonical.
    unfold bounded, canonical_mantissa.
    rewrite digits2_iter_xO, positive_nat_Z.
    apply andb_true_iff. split.
    + apply Z.eqb_eq. unfold fexp, emin, JS.prec, JS.emax. lia.
    + apply Z.leb_le. unfold JS.prec, JS.emax. lia.
Qed.

Lemma to_integer_binary_round s n :
  Zpos (digits2_pos n) <= 53 ->
  JS.to_integer (binary_round JS.prec JS.emax s n 0)
  = Some (if s then Zneg n else Zpos n).
Proof.
  intros Hd. rewrite binary_round_integer by exact Hd.
  destruct (Zpos (digits2_pos n) - 53) as [|k|k]; cbn [JS.to_integer].
  - destruct s; reflexivity.
  - destruct s; reflexivity.
  - rewrite shiftr_iter_xO.
    rewrite Z.shiftl_mul_pow2, Zpos_iter_xO, positive_nat_Z, Z.eqb_refl by lia.
    destruct s; reflexivity.
Qed.

Lemma to_integer_of_Z n :
  Zpos (digits2_pos (Z.to_pos (Z.abs n))) <= 53 -> JS.to_integer (JS.of_Z n) = Some n.
Proof.
  destruct n as [|n|n]; intros H; [reflexivity| |];
    apply to_integer_binary_round; exact H.
Qed.

(** On a positive number [Math.ceil] yields a positive integer. *)
Lemma ceil_positive m e :
  JS.valid (S754_finite false m e) = true ->
  positive_integer (JS.Math_ceil (S754_finite false m e)).
Proof.
  intros Hv. pose proof (valid_digits _ _ _ Hv) as Hd. unfold positive_integer.
  destruct e as [|k|k]; cbn [JS.Math_ceil].
  - exists (Zpos m). split; [reflexivity|lia].
  - exists (Z.shiftl (Zpos m) (Zpos k)). split; [reflexivity|].
    rewrite Z.shiftl_mul_pow2 by lia.
    pose proof (Z.pow_pos_nonneg 2 (Zpos k)). nia.
  - assert (Hq : 0 <= Z.shiftr (Zpos m) (Zpos k)) by (apply Z.shiftr_nonneg; lia).
    assert (Hle : Z.shiftr (Zpos m) (Zpos k) * 2 ^ Zpos k <= Zpos m).
    { rewrite Z.shiftr_div_pow2 by lia.
      pose proof (Z.pow_pos_nonneg 2 (Zpos k)).
      rewrite Z.mul_comm. apply Z.mul_div_le. lia. }
    destruct (Z.shiftl _ _ =? Zpos m) eqn:Hx.
    + cbn [JS.to_integer]. rewrite Hx.
      exists (Z.shiftr (Zpos m) (Zpos k)). split; [reflexivity|].
      apply Z.eqb_eq in Hx. rewrite Z.shiftl_mul_pow2 in Hx by lia. nia.
    + destruct (Z.shiftr (Zpos m) (Zpos k) + 1) as [|n|n] eqn:Hn; try lia.
      exists (Zpos n). split; [|lia].
      apply (to_integer_binary_round false).
      assert (Hnm : (n <= m)%positive).
      { assert (2 <= 2 ^ Zpos k).
        { change 2 with (2 ^ 1) at 1. apply Z.pow_le_mono_r; lia. }
        destruct (Z.eq_dec (Z.shiftr (Zpos m) (Zpos k)) 0) as [H0|H0]; [lia|nia]. }
      pose proof (digits2_le _ _ Hnm). lia.
Qed.

(** *** The rational a number denotes *)








(** *** A quotient worked out: 16/5 *)





End Binary64.

Import Binary64.

(** ** Measurement *)

Lemma isVertical_cases a :
  isVertical a
  = match a with AxisY | AxisNegY => true | AxisX | AxisNegX => false end.
Proof. destruct a; reflexivity. Qed.

Lemma measure_attached props st view holder :
  measure props st (attached view holder) =
  {| uid := uid st;
     mFactor := if clone_of props
                then JS.Math_ceil (quotient (isVertical (axis_of props)) view holder)
                else mFactor st;
     distance := scroll_size (isVertical (axis_of props)) view |}.
Proof.
  unfold measure, handleResize, attached, quotient, scroll_size; cbn.
  destruct (clone_of props), (isVertical (axis_of props)); reflexivity.
Qed.

Lemma measure_mFactor props st refs :
  mFactor (measure props st refs) =
  match viewRef refs, holderRef refs with
  | Some view, Some holder =>
      if clone_of props
      then JS.Math_ceil (quotient (isVertical (axis_of props)) view holder)
      else mFactor st
  | _, _ => mFactor st
  end.
Proof.
  unfold measure, handleResize, quotient, scroll_size.
  destruct (viewRef refs), (holderRef refs); try reflexivity.
  destruct (clone_of props), (isVertical (axis_of props)); reflexivity.
Qed.

(** C9: when the viewport element or the holder element is not attached,
    the handler queues no state update, and the whole state, so the content
    distance and the clone factor, is what it was before the cycle. *)
Theorem detached_is_noop props st refs :
  viewRef refs = None \/ holderRef refs = None ->
  handleResize (clone_of props) (isVertical (axis_of props)) refs = []
  /\ measure props st refs = st.
Proof.
  intros H.
  assert (Hh : handleResize (clone_of props) (isVertical (axis_of props)) refs = []).
  { unfold handleResize.
    destruct H as [H|H]; rewrite H; [|destruct (viewRef refs)]; reflexivity. }
  split; [exact Hh|]. unfold measure. rewrite Hh. reflexivity.
Qed.

Lemma detached_is_noop_witness :
  let refs := {| viewRef := Some (element 800 40); holderRef := None |} in
  let st := {| uid := None; mFactor := JS.of_Z 4; distance := JS.of_Z 640 |} in
  (viewRef refs = None \/ holderRef refs = None)
  /\ handleResize (clone_of no_props) (isVertical (axis_of no_props)) refs = []
  /\ measure no_props st refs = st.
Proof.
  intros refs st. split; [right; reflexivity|].
  apply (detached_is_noop no_props st refs). right; reflexivity.
Defined.

(** C2, as stated, fails: with a viewport 800 pixels wide and a holder 100
    pixels wide on the horizontal axis, the stored content distance is 800,
    not the holder's 100. *)
Lemma distance_is_not_holder_size :
  let view := element 800 40 in
  let holder := element 100 40 in
  let st := measure no_props (initial_state no_props) (attached view holder) in
  distance st = JS.of_Z 800
  /\ scroll_size (isVertical (axis_of no_props)) holder = JS.of_Z 100
  /\ JS.eqb (distance st) (scroll_size (isVertical (axis_of no_props)) holder)
     = false.
Proof. vm_compute. repeat split. Qed.

(** C2, amended: on every measurement cycle with both elements attached, the
    value stored as content distance is the size of the viewport's bounding
    rectangle along the scroll axis: its height for the axes "y" and "-y",
    its width for "x" and "-x". *)
Theorem distance_is_viewport_size props st view holder :
  distance (measure props st (attached view holder))
  = match axis_of props with
    | AxisY | AxisNegY => height (getBoundingClientRect view)
    | AxisX | AxisNegX => width (getBoundingClientRect view)
    end.
Proof.
  rewrite measure_attached. cbn [distance]. unfold scroll_size.
  rewrite isVertical_cases. destruct (axis_of props); reflexivity.
Qed.

Lemma ceil_positive_finite q :
  JS.valid q = true -> positive_finite q = true ->
  positive_integer (JS.Math_ceil q).
Proof.
  unfold positive_finite. intros Hv H.
  apply andb_true_iff in H as [Hf Hp].
  destruct q as [s|s| |s m e]; try discriminate.
  destruct s; try discriminate.
  apply ceil_positive, Hv.
Qed.

Lemma measure_keeps_positive_integer props st refs :
  well_sized (props, refs) = true ->
  positive_integer (mFactor st) ->
  positive_integer (mFactor (measure props st refs)).
Proof.
  intros Hw Hst. rewrite measure_mFactor. unfold well_sized in Hw.
  destruct (viewRef refs), (holderRef refs); try exact Hst.
  destruct (clone_of props); [|exact Hst].
  apply ceil_positive_finite; [apply div_valid|exact Hw].
Qed.

(** C3, as stated, fails: a viewport of width 0 over a holder of width 100
    stores the clone factor 0, which is below 1. *)
Lemma zero_viewport_clone_factor_zero :
  let st := measure no_props (initial_state no_props)
                    (attached (element 0 40) (element 100 40)) in
  mFactor st = JS.zero
  /\ JS.to_integer (mFactor st) = Some 0
  /\ JS.leb JS.one (mFactor st) = false.
Proof. vm_compute. repeat split. Qed.

(** C3, amended: starting from the initial state, after every sequence of
    measurement cycles in which each cycle that measures with cloning
    enabled has a quotient viewport size / holder size that is a finite
    number above zero, the stored clone factor is an integer greater than or
    equal to 1. *)
Theorem clone_factor_positive_integer props cycles :
  forallb well_sized cycles = true ->
  positive_integer (mFactor (measure_all (initial_state props) cycles)).
Proof.
  unfold measure_all.
  assert (H0 : positive_integer (mFactor (initial_state props))).
  { exists 1. split; [reflexivity|lia]. }
  revert H0. generalize (initial_state props) as st.
  induction cycles as [|[p refs] cycles IH]; intros st Hst Hall; [exact Hst|].
  cbn [forallb] in Hall. apply andb_true_iff in Hall as [Hw Hall].
  cbn [fold_left fst snd]. apply IH; [|exact Hall].
  apply measure_keeps_positive_integer; assumption.
Qed.

Lemma clone_factor_positive_integer_witness :
  let cycles := [ (no_props, {| viewRef := None; holderRef := None |});
                  (no_props, attached (element 320 40) (element 100 40));
                  (with_fade AxisY None, attached (element 40 1280) (element 40 100)) ] in
  forallb well_sized cycles = true
  /\ mFactor (measure_all (initial_state no_props) cycles) = JS.of_Z 13
  /\ positive_integer (mFactor (measure_all (initial_state no_props) cycles)).
Proof.
  intros cycles. split; [reflexivity|]. split; [reflexivity|].
  apply (clone_factor_positive_integer no_props cycles). reflexivity.
Defined.

(** What the clone factor is over a holder of size 0 with cloning enabled:
    the unguarded quotient, which is never finite. *)
Lemma zero_holder_clone_factor_not_finite props st view holder sh :
  clone_of props = true ->
  scroll_size (isVertical (axis_of props)) holder = S754_zero sh ->
  let v := scroll_size (isVertical (axis_of props)) view in
  let st' := measure props st (attached view holder) in
  mFactor st' = JS.div v (S754_zero sh)
  /\ JS.is_finite (mFactor st') = false
  /\ mappedChildren (mFactor st') = None
  /\ (JS.truthy v = false -> mFactor st' = JS.NaN)
  /\ (JS.ltb JS.zero v = true -> sh = false -> mFactor st' = JS.Infinity).
Proof.
  intros Hc Hh v st'. subst st'.
  rewrite measure_mFactor. cbn [attached viewRef holderRef]. rewrite Hc.
  unfold quotient. rewrite Hh. fold v.
  destruct v as [s|s| |s m e]; cbn;
    repeat split; try reflexivity; try discriminate.
  - destruct s; [discriminate|]. intros _ ->. reflexivity.
  - destruct s; [discriminate|]. intros _ ->. reflexivity.
Qed.

(** C4: the code at the failing input.  With cloning enabled (the default),
    a holder measured 0 pixels wide under a viewport 800 pixels wide stores
    the clone factor [Infinity], not the neutral 1, and [Array] rejects
    that length when the copies are rendered. *)
Theorem zero_holder_clone_factor_infinite :
  let st := measure no_props (initial_state no_props)
                    (attached (element 800 40) (element 0 0)) in
  clone_of no_props = true
  /\ mFactor st = JS.Infinity
  /\ JS.eqb (mFactor st) (JS.of_Z 1) = false
  /\ mappedChildren (mFactor st) = None.
Proof. vm_compute. repeat split. Qed.







(** ** Animation duration *)

(** What [duration] is when [balanceDistance] is a zero. *)
Lemma duration_zero_balance speed distance sb :
  duration speed distance (S754_zero sb)
  = if JS.truthy speed && JS.truthy distance
    then JS.mul speed (JS.div distance (S754_zero sb))
    else JS.zero.
Proof.
  unfold duration, JS.or_else.
  destruct speed as [s|s| |s m e], distance as [t|t| |t n f]; reflexivity.
Qed.

Lemma duration_zero_balance_not_finite speed distance sb :
  JS.truthy speed = true -> JS.truthy distance = true ->
  JS.is_finite (duration speed distance (S754_zero sb)) = false.
Proof.
  destruct speed as [s|s| |s m e], distance as [t|t| |t n f];
    try discriminate; reflexivity.
Qed.

(** C1: the code at the failing input.  With [balanceDistance = 0], the
    default speed 50 and a viewport measured 800 pixels wide, the computed
    duration is [Infinity], not 0, and the animation style carries it. *)
Theorem zero_balance_duration_is_infinite :
  let props := with_balance JS.zero in
  let mounted := commit (initial_state props) [setUid "anim-1"] in
  let st := measure props mounted (attached (element 800 40) (element 100 40)) in
  duration (speed_of props) (distance (initial_state props))
           (balanceDistance_of props) = JS.zero
  /\ duration (speed_of props) (distance st) (balanceDistance_of props)
     = JS.Infinity
  /\ get_prop "animation" (track_style props st)
     = Some (Template [Uid (Some "anim-1"); Lit " "; Num JS.Infinity;
                       Lit "s linear infinite"]).
Proof. vm_compute. repeat split. Qed.

(** C6: for a finite speed above 0, a finite balance distance above 0 and a
    finite content distance that is not negative, the duration is the number
    [speed * (distance / balanceDistance)], and it is not below 0. *)
Theorem duration_formula speed distance balanceDistance :
  JS.is_finite speed = true -> JS.ltb JS.zero speed = true ->
  JS.is_finite balanceDistance = true -> JS.ltb JS.zero balanceDistance = true ->
  JS.is_finite distance = true -> JS.leb JS.zero distance = true ->
  JS.eqb (duration speed distance balanceDistance)
         (JS.mul speed (JS.div distance balanceDistance)) = true
  /\ JS.leb JS.zero (duration speed distance balanceDistance) = true.
Proof.
  intros Fs Ps Fb Pb Fd Pd.
  destruct speed as [s|s| |s m e]; try discriminate.
  destruct s; try discriminate.
  destruct balanceDistance as [sb|sb| |sb mb eb]; try discriminate.
  destruct sb; try discriminate.
  destruct distance as [sd|sd| |sd md ed]; try discriminate.
  - unfold duration. destruct sd; vm_compute; split; reflexivity.
  - destruct sd; try discriminate.
    unfold duration.
    pose proof (div_signed false md ed false mb eb) as Hq. cbn [xorb] in Hq.
    destruct Hq as [|mq eq|]; try (split; reflexivity).
    pose proof (mul_signed false m e false mq eq) as Hp. cbn [xorb] in Hp.
    destruct Hp as [|mp ep|]; try (split; reflexivity).
    cbn [JS.or_else JS.truthy]. split; [|reflexivity].
    unfold JS.eqb, SFeqb, SFcompare.
    rewrite Z.compare_refl, Pos.compare_cont_refl. reflexivity.
Qed.

Lemma duration_formula_witness :
  let speed := JS.of_Z 50 in
  let distance := JS.of_Z 800 in
  let balanceDistance := JS.of_Z 400 in
  duration speed distance balanceDistance = JS.of_Z 100
  /\ JS.eqb (duration speed distance balanceDistance)
            (JS.mul speed (JS.div distance balanceDistance)) = true
  /\ JS.leb JS.zero (duration speed distance balanceDistance) = true.
Proof.
  intros speed distance balanceDistance. split; [reflexivity|].
  apply (duration_formula speed distance balanceDistance); reflexivity.
Defined.

(** C10: before any measurement the stored content distance is
    [balanceDistance], and for every finite [balanceDistance] other than
    zero the first computed duration equals the speed. *)
Theorem first_duration_is_speed props :
  JS.is_finite (balanceDistance_of props) = true ->
  JS.truthy (balanceDistance_of props) = true ->
  JS.valid (speed_of props) = true ->
  JS.is_nan (speed_of props) = false ->
  distance (initial_state props) = balanceDistance_of props
  /\ JS.eqb (duration (speed_of props) (distance (initial_state props))
                      (balanceDistance_of props))
            (speed_of props) = true.
Proof.
  intros Fb Tb Vs Ns. split; [reflexivity|].
  cbn [initial_state distance].
  destruct (balanceDistance_of props) as [sb|sb| |sb mb eb]; try discriminate.
  unfold duration. rewrite div_self, mul_one by exact Vs.
  destruct (speed_of props) as [s|s| |s m e]; try discriminate.
  - destruct s; reflexivity.
  - destruct s; reflexivity.
  - cbn [JS.or_else JS.truthy]. unfold JS.eqb, SFeqb, SFcompare.
    rewrite Z.compare_refl, Pos.compare_cont_refl. destruct s; reflexivity.
Qed.

Lemma first_duration_is_speed_witness :
  JS.is_finite (balanceDistance_of no_props) = true
  /\ JS.truthy (balanceDistance_of no_props) = true
  /\ distance (initial_state no_props) = JS.of_Z 400
  /\ JS.eqb (duration (speed_of no_props) (distance (initial_state no_props))
                      (balanceDistance_of no_props))
            (JS.of_Z 50) = true.
Proof.
  split; [reflexivity|]. split; [reflexivity|].
  apply (first_duration_is_speed no_props); reflexivity.
Defined.

(** ** Keyframes and fade mask *)

Lemma append_assoc (a b c : string) : (a ++ b) ++ c = a ++ (b ++ c).
Proof.
  induction a as [|ch a IH]; simpl; [reflexivity|]. rewrite IH. reflexivity.
Qed.

(** C7: the transform target follows the direction table: "x" gives
    [translateX(-100%)], "-x" gives [translateX(100%)], "y" gives
    [translateY(-100%)] and "-y" gives [translateY(100%)]; the generated
    style text ends with the keyframe of that target at 100%. *)
Theorem transform_target_table :
  anim AxisX = "translateX(-100%)"
  /\ anim AxisNegX = "translateX(100%)"
  /\ anim AxisY = "translateY(-100%)"
  /\ anim AxisNegY = "translateY(100%)"
  /\ forall uid a pauseOnHover,
       exists rules,
         animationStyle uid a pauseOnHover
         = rules ++ "@keyframes " ++ uid ++ "{
    100% {
      transform: " ++ anim a ++ "
    }
  }
".
Proof.
  repeat split; try reflexivity.
  intros uid a p.
  exists ("
      .marquee-anim:hover > .marquee-" ++ uid ++ " {
        animation-play-state: "
            ++ (if p then "paused !important" else "running") ++ ";
      }

  ").
  unfold animationStyle. rewrite !append_assoc. reflexivity.
Qed.

(** The mask image [fadeStyle] writes is the printed form of
    [mask_gradient]. *)
Lemma maskImage_reading f a : maskImage f a = CSS.print (mask_gradient f a).
Proof. destruct f, a; reflexivity. Qed.

Lemma alpha_at_mask f a p :
  CSS.alpha_at (mask_gradient f a) p
  = CSS.alpha_on
      (mask_line (CSS.alpha (start_color f)) (CSS.alpha (end_color f))) p.
Proof. reflexivity. Qed.

Lemma Qle_bool_false p q : Qle_bool p q = false -> (q < p)%Q.
Proof.
  intros H. apply Qnot_le_lt. intros Hle.
  apply Qle_bool_iff in Hle. congruence.
Qed.

Section Mask.

Variables a0 a1 : Q.

Lemma mask_at_start : CSS.alpha_on (mask_line a0 a1) (0 # 1) = a0.
Proof. reflexivity. Qed.

Lemma mask_at_end : (CSS.alpha_on (mask_line a0 a1) (100 # 1) == a1)%Q.
Proof.
  unfold mask_line, CSS.alpha_on. cbn [fst snd CSS.alpha_after].
  change (Qle_bool (100 # 1) (0 # 1)) with false.
  change (Qle_bool (100 # 1) (20 # 1)) with false.
  change (Qle_bool (100 # 1) (80 # 1)) with false.
  change (Qle_bool (100 # 1) (100 # 1)) with true.
  cbv iota. field.
Qed.

Lemma mask_band p :
  (20 # 1 <= p)%Q -> (p <= 80 # 1)%Q ->
  (CSS.alpha_on (mask_line a0 a1) p == 1)%Q.
Proof.
  intros Hlo Hhi. unfold mask_line, CSS.alpha_on. cbn [fst snd CSS.alpha_after].
  destruct (Qle_bool p (0 # 1)) eqn:H0.
  { apply Qle_bool_iff in H0. exfalso.
    apply (Qle_not_lt _ _ (Qle_trans _ _ _ Hlo H0)). reflexivity. }
  destruct (Qle_bool p (20 # 1)) eqn:H20.
  { apply Qle_bool_iff in H20.
    assert (Hp : (p == 20 # 1)%Q) by (apply Qle_antisym; assumption).
    change (Qle_bool (20 # 1) (0 # 1)) with false. cbv iota.
    rewrite Hp. field. }
  destruct (Qle_bool p (80 # 1)) eqn:H80.
  { change (Qle_bool (80 # 1) (20 # 1)) with false. cbv iota. field. }
  apply Qle_bool_false in H80. exfalso. apply (Qle_not_lt _ _ Hhi). exact H80.
Qed.

(** From the 20% mark on the mask stays opaque when it ends opaque. *)
Lemma mask_after_20 p :
  (a1 == 1)%Q -> (20 # 1 <= p)%Q -> (CSS.alpha_on (mask_line a0 a1) p == 1)%Q.
Proof.
  intros Ha Hlo.
  destruct (Qle_bool p (80 # 1)) eqn:H80.
  { apply mask_band; [exact Hlo|]. apply Qle_bool_iff. exact H80. }
  assert (H20 : Qle_bool p (20 # 1) = false).
  { destruct (Qle_bool p (20 # 1)) eqn:E; [|reflexivity].
    apply Qle_bool_iff in E. apply Qle_bool_false in H80. exfalso.
    apply (Qle_not_lt _ _ E). eapply Qlt_trans; [|exact H80]. reflexivity. }
  assert (H0 : Qle_bool p (0 # 1) = false).
  { destruct (Qle_bool p (0 # 1)) eqn:E; [|reflexivity].
    apply Qle_bool_iff in E. apply Qle_bool_false in H20. exfalso.
    apply (Qle_not_lt _ _ E). eapply Qlt_trans; [|exact H20]. reflexivity. }
  unfold mask_line, CSS.alpha_on. cbn [fst snd CSS.alpha_after].
  rewrite H0, H20, H80.
  destruct (Qle_bool p (100 # 1)).
  - change (Qle_bool (100 # 1) (80 # 1)) with false. cbv iota.
    rewrite Ha. field.
  - exact Ha.
Qed.

(** Up to the 80% mark the mask is opaque when it starts opaque. *)
Lemma mask_before_80 p :
  (a0 == 1)%Q -> (p <= 80 # 1)%Q -> (CSS.alpha_on (mask_line a0 a1) p == 1)%Q.
Proof.
  intros Ha Hhi.
  destruct (Qle_bool p (0 # 1)) eqn:H0.
  { unfold mask_line, CSS.alpha_on. cbn [fst snd]. rewrite H0. exact Ha. }
  destruct (Qle_bool p (20 # 1)) eqn:H20.
  { unfold mask_line, CSS.alpha_on. cbn [fst snd CSS.alpha_after].
    rewrite H0, H20.
    change (Qle_bool (20 # 1) (0 # 1)) with false. cbv iota.
    rewrite Ha. field. }
  apply mask_band; [|exact Hhi].
  apply Qlt_le_weak, Qle_bool_false, H20.
Qed.

End Mask.

Lemma view_style_mask props f :
  fade props = Some f ->
  get_prop "maskImage" (view_style props)
  = Some (Text (CSS.print (mask_gradient f (axis_of props))))
  /\ get_prop "WebkitMaskImage" (view_style props)
     = Some (Text (CSS.print (mask_gradient f (axis_of props)))).
Proof.
  intros Hf. unfold view_style. rewrite Hf, <- maskImage_reading.
  split; reflexivity.
Qed.

(** C8: with a fade mode set, the viewport's mask image is a linear gradient
    along the scroll axis whose alpha is 1 on the whole band from 20% to
    80%; for "start" it is 0 at the 0% end only (1 from 20% on), for "end"
    0 at the 100% end only (1 up to 80%), for "both" 0 at both ends.  With
    [fade] null the viewport style has its two own properties and no mask
    property. *)
Theorem fade_mask_shape :
  (forall props f,
      fade props = Some f ->
      let g := mask_gradient f (axis_of props) in
      get_prop "maskImage" (view_style props) = Some (Text (CSS.print g))
      /\ get_prop "WebkitMaskImage" (view_style props) = Some (Text (CSS.print g))
      /\ (forall p, (20 # 1 <= p)%Q -> (p <= 80 # 1)%Q -> (CSS.alpha_at g p == 1)%Q)
      /\ match f with
         | FadeStart =>
             (CSS.alpha_at g (0 # 1) == 0)%Q
             /\ forall p, (20 # 1 <= p)%Q -> (CSS.alpha_at g p == 1)%Q
         | FadeEnd =>
             (CSS.alpha_at g (100 # 1) == 0)%Q
             /\ forall p, (p <= 80 # 1)%Q -> (CSS.alpha_at g p == 1)%Q
         | FadeBoth =>
             (CSS.alpha_at g (0 # 1) == 0)%Q /\ (CSS.alpha_at g (100 # 1) == 0)%Q
         end)
  /\ (forall props,
         fade props = None ->
         view_style props = [("height", Text "100%"); ("overflow", Text "clip")]
         /\ forall k, get_prop k (fadeStyle FadeBoth (axis_of props)) <> None ->
                      get_prop k (view_style props) = None).
Proof.
  split.
  - intros props f Hf g.
    destruct (view_style_mask props f Hf) as [Hm Hw].
    split; [exact Hm|]. split; [exact Hw|]. subst g.
    split.
    + intros p Hlo Hhi. rewrite alpha_at_mask. apply mask_band; assumption.
    + destruct f; split; try intros p Hp; rewrite alpha_at_mask.
      * rewrite mask_at_start. reflexivity.
      * apply mask_after_20; [reflexivity|exact Hp].
      * apply mask_at_end.
      * apply mask_before_80; [reflexivity|exact Hp].
      * rewrite mask_at_start. reflexivity.
      * apply mask_at_end.
  - intros props Hf. unfold view_style. rewrite Hf.
    split; [reflexivity|].
    intros k Hk. cbn [spread fold_left].
    cbn [fadeStyle get_prop] in Hk.
    repeat match type of Hk with
           | context [String.eqb k ?s] =>
               destruct (String.eqb k s) eqn:E;
               [apply String.eqb_eq in E; subst k; reflexivity|clear E]
           end.
    exfalso. apply Hk. reflexivity.
Qed.

Lemma fade_mask_shape_witness :
  let props := with_fade AxisNegX (Some FadeStart) in
  let g := mask_gradient FadeStart AxisNegX in
  fade props = Some FadeStart
  /\ CSS.print g
     = "linear-gradient(to right, transparent, black 20%, black 80%, black)"
  /\ get_prop "maskImage" (view_style props) = Some (Text (CSS.print g))
  /\ (CSS.alpha_at g (0 # 1) == 0)%Q
  /\ (CSS.alpha_at g (50 # 1) == 1)%Q
  /\ fade (with_fade AxisNegX None) = None
  /\ view_style (with_fade AxisNegX None)
     = [("height", Text "100%"); ("overflow", Text "clip")].
Proof.
  intros props g.
  destruct fade_mask_shape as [Hset Hnull].
  destruct (Hset props FadeStart eq_refl) as (Hm & _ & Hband & H0 & _).
  split; [reflexivity|]. split; [reflexivity|]. split; [exact Hm|].
  split; [exact H0|]. split; [apply Hband; discriminate|].
  split; [reflexivity|]. apply (Hnull (with_fade AxisNegX None) eq_refl).
Defined.

(** ** Style objects *)

Lemma get_set_same k v o : get_prop k (set_prop k v o) = Some v.
Proof.
  induction o as [|[k' v'] o IH]; cbn.
  - rewrite String.eqb_refl. reflexivity.
  - destruct (String.eqb k k') eqn:E; cbn; rewrite E; [reflexivity|exact IH].
Qed.

Lemma get_set_other k k' v o :
  k <> k' -> get_prop k (set_prop k' v o) = get_prop k o.
Proof.
  intros Hne. induction o as [|[k1 v1] o IH]; cbn.
  - destruct (String.eqb_spec k k'); [contradiction|reflexivity].
  - destruct (String.eqb_spec k' k1) as [->|N]; cbn.
    + destruct (String.eqb_spec k k1); [contradiction|reflexivity].
    + destruct (String.eqb_spec k k1); [reflexivity|exact IH].
Qed.

Lemma get_none_not_key k o : get_prop k o = None <-> ~ In k (keys o).
Proof.
  unfold keys. induction o as [|[k1 v1] o IH]; cbn; [tauto|].
  destruct (String.eqb_spec k k1) as [->|N].
  - split; [discriminate|]. intros H. exfalso. apply H. left. reflexivity.
  - rewrite IH. split; intros H; [intros [E|E]; [congruence|tauto]|tauto].
Qed.

Lemma set_prop_new k v o : ~ In k (keys o) -> set_prop k v o = (o ++ [(k, v)])%list.
Proof.
  unfold keys. induction o as [|[k1 v1] o IH]; cbn; [reflexivity|]. intros H.
  destruct (String.eqb_spec k k1) as [->|N]; [tauto|].
  rewrite IH by tauto. reflexivity.
Qed.

Lemma keys_set_prop k v o :
  keys (set_prop k v o)
  = if existsb (String.eqb k) (keys o) then keys o else (keys o ++ [k])%list.
Proof.
  unfold keys. induction o as [|[k1 v1] o IH]; cbn; [reflexivity|].
  destruct (String.eqb_spec k k1) as [->|N]; cbn; [reflexivity|].
  rewrite IH. destruct (existsb _ _); reflexivity.
Qed.

Lemma existsb_eqb_In k l : existsb (String.eqb k) l = true <-> In k l.
Proof.
  rewrite existsb_exists. split.
  - intros [x [Hx E]]. apply String.eqb_eq in E. subst. exact Hx.
  - intros H. exists k. split; [exact H|apply String.eqb_refl].
Qed.

(** Assignment and spreading keep the keys of an object distinct. *)
Lemma set_prop_unique k v o : NoDup (keys o) -> NoDup (keys (set_prop k v o)).
Proof.
  intros H. rewrite keys_set_prop.
  destruct (existsb (String.eqb k) (keys o)) eqn:E; [exact H|].
  apply NoDup_app; [exact H|repeat constructor; intros []|].
  intros x Hx [<-|[]]. apply existsb_eqb_In in Hx. congruence.
Qed.

Lemma spread_unique o src : NoDup (keys o) -> NoDup (keys (spread o src)).
Proof.
  unfold spread. revert o. induction src as [|[k v] src IH]; intros o H; cbn.
  - exact H.
  - apply IH, set_prop_unique, H.
Qed.

(** Reading [{...o, ...src}]: [src] first, then [o]. *)
Lemma get_spread k o src :
  NoDup (keys src) ->
  get_prop k (spread o src)
  = match get_prop k src with Some v => Some v | None => get_prop k o end.
Proof.
  unfold spread. revert o. induction src as [|[k1 v1] src IH]; intros o H; cbn.
  - reflexivity.
  - inversion H as [|? ? Hnin Hnd]; subst. rewrite IH by exact Hnd.
    destruct (String.eqb_spec k k1) as [->|N].
    + apply get_none_not_key in Hnin. rewrite Hnin. apply get_set_same.
    + rewrite get_set_other by exact N. reflexivity.
Qed.

Lemma spread_disjoint o src :
  NoDup (keys (o ++ src)%list) -> spread o src = (o ++ src)%list.
Proof.
  unfold spread. revert o. induction src as [|[k1 v1] src IH]; intros o H; cbn.
  - rewrite app_nil_r. reflexivity.
  - assert (Hk : ~ In k1 (keys o)).
    { unfold keys in *. rewrite map_app in H. cbn in H.
      apply NoDup_remove_2 in H. intros Hin. apply H, in_or_app. left. exact Hin. }
    rewrite set_prop_new by exact Hk.
    rewrite IH; rewrite <- app_assoc; [reflexivity|exact H].
Qed.

Lemma track_style_unique props st : NoDup (keys (track_style props st)).
Proof.
  unfold track_style. repeat apply set_prop_unique. apply spread_unique. constructor.
Qed.

Lemma track_style_animation props st :
  get_prop "animation" (track_style props st)
  = Some (Template [Uid (uid st); Lit " ";
                    Num (duration (speed_of props) (distance st)
                                  (balanceDistance_of props));
                    Lit "s linear infinite"]).
Proof. apply get_set_same. Qed.

Lemma track_style_other props st k :
  NoDup (keys (default [] (style props))) ->
  k <> "display" -> k <> "flexDirection" -> k <> "animation" ->
  get_prop k (track_style props st) = get_prop k (default [] (style props)).
Proof.
  intros Hu Hd Hf Ha. unfold track_style.
  rewrite !get_set_other by assumption.
  rewrite get_spread by exact Hu.
  destruct (get_prop k (default [] (style props))); reflexivity.
Qed.

(** X1. The [style] object of the tracks: [display], [flexDirection] and
    [animation] are the component's own whatever [props.style] says, and
    every other property of [props.style] passes through unchanged. *)
Theorem track_style_merge props st :
  NoDup (keys (default [] (style props))) ->
  get_prop "display" (track_style props st) = Some (Text "flex")
  /\ get_prop "flexDirection" (track_style props st)
     = Some (Text (flexDirection (axis_of props)))
  /\ get_prop "animation" (track_style props st)
     = Some (Template [Uid (uid st); Lit " ";
                       Num (duration (speed_of props) (distance st)
                                     (balanceDistance_of props));
                       Lit "s linear infinite"])
  /\ forall k,
       k <> "display" -> k <> "flexDirection" -> k <> "animation" ->
       get_prop k (track_style props st) = get_prop k (default [] (style props)).
Proof.
  intros Hu. split; [|split; [|split]].
  - unfold track_style.
    rewrite get_set_other, get_set_other, get_set_same by discriminate. reflexivity.
  - unfold track_style.
    rewrite get_set_other, get_set_same by discriminate. reflexivity.
  - apply track_style_animation.
  - intros k Hd Hf Ha. apply track_style_other; assumption.
Qed.

Lemma track_style_merge_witness :
  let props := {| speed := None; axis := None; clone := None;
                  balanceDistance := None; className := None;
                  style := Some [("color", Text "red"); ("display", Text "block")];
                  pauseOnHover := None; fade := None |} in
  NoDup (keys (default [] (style props)))
  /\ get_prop "display" (track_style props (initial_state props)) = Some (Text "flex")
  /\ get_prop "color" (track_style props (initial_state props)) = Some (Text "red").
Proof.
  intros props.
  assert (Hu : NoDup (keys (default [] (style props)))).
  { repeat constructor; cbn; intuition discriminate. }
  destruct (track_style_merge props (initial_state props) Hu) as (Hd & _ & _ & Hk).
  split; [exact Hu|]. split; [exact Hd|].
  rewrite (Hk "color"); [reflexivity|discriminate|discriminate|discriminate].
Defined.

Lemma get_clone_track_style props st k :
  get_prop k (clone_track_style props st)
  = match get_prop k (track_style props st) with
    | Some v => Some v
    | None => get_prop k (cloneStyle (axis_of props))
    end.
Proof. unfold clone_track_style. apply get_spread, track_style_unique. Qed.

(** X2. The style of the duplicate track, [{...cloneStyle, ...style}]: every
    property of the track style wins over [cloneStyle]; on the axes "x" and
    "y" the duplicate has the very style of the first track; on "-x" and
    "-y" it is positioned absolutely, one track length before the first,
    as far as [props.style] does not set these properties itself. *)
Theorem clone_track_style_merge props st :
  NoDup (keys (default [] (style props))) ->
  (forall k, get_prop k (clone_track_style props st)
             = match get_prop k (track_style props st) with
               | Some v => Some v
               | None => get_prop k (cloneStyle (axis_of props))
               end)
  /\ match axis_of props with
     | AxisX | AxisY => clone_track_style props st = track_style props st
     | AxisNegX =>
         (get_prop "position" (default [] (style props)) = None ->
          get_prop "position" (clone_track_style props st) = Some (Text "absolute"))
         /\ (get_prop "right" (default [] (style props)) = None ->
             get_prop "right" (clone_track_style props st) = Some (Text "100%"))
     | AxisNegY =>
         (get_prop "position" (default [] (style props)) = None ->
          get_prop "position" (clone_track_style props st) = Some (Text "absolute"))
         /\ (get_prop "top" (default [] (style props)) = None ->
             get_prop "top" (clone_track_style props st) = Some (Text "-100%"))
     end.
Proof.
  intros Hu. split; [intros k; apply get_clone_track_style|].
  destruct (axis_of props) eqn:A.
  - unfold clone_track_style. rewrite A.
    change (cloneStyle AxisX) with (@nil (string * css_value)).
    apply spread_disjoint, track_style_unique.
  - unfold clone_track_style. rewrite A.
    change (cloneStyle AxisY) with (@nil (string * css_value)).
    apply spread_disjoint, track_style_unique.
  - split; intros H; rewrite get_clone_track_style, track_style_other, H, A
      by (exact Hu || discriminate); reflexivity.
  - split; intros H; rewrite get_clone_track_style, track_style_other, H, A
      by (exact Hu || discriminate); reflexivity.
Qed.

Lemma clone_track_style_merge_witness :
  let props := {| speed := None; axis := Some AxisNegX; clone := None;
                  balanceDistance := None; className := None;
                  style := Some [("color", Text "red")];
                  pauseOnHover := None; fade := None |} in
  let st := initial_state props in
  NoDup (keys (default [] (style props)))
  /\ get_prop "position" (clone_track_style props st) = Some (Text "absolute")
  /\ get_prop "right" (clone_track_style props st) = Some (Text "100%")
  /\ get_prop "color" (clone_track_style props st) = Some (Text "red").
Proof.
  intros props st.
  assert (Hu : NoDup (keys (default [] (style props)))).
  { repeat constructor; cbn; intuition discriminate. }
  destruct (clone_track_style_merge props st Hu) as [Hk [Hp Hr]].
  split; [exact Hu|]. split; [apply Hp; reflexivity|].
  split; [apply Hr; reflexivity|]. rewrite Hk. reflexivity.
Defined.

(** ** One axis, read in five places *)

(** X3. [isVertical], [flexDirection], the keyframes' transform, the
    direction of the fade gradient and the side [handleResize] measures all
    follow the same split of the four axes: "y" and "-y" give a column,
    [translateY], a gradient to the bottom and heights; "x" and "-x" give a
    row, [translateX], a gradient to the right and widths. *)
Theorem axis_agreement a :
  if isVertical a
  then flexDirection a = "column"
       /\ gradientDirection a = "to bottom"
       /\ (anim a = "translateY(-100%)" \/ anim a = "translateY(100%)")
       /\ (forall c view holder,
              handleResize c (isVertical a) (attached view holder)
              = setDistance (height (getBoundingClientRect view))
                :: (if c then [setMFactor (JS.Math_ceil
                                  (JS.div (height (getBoundingClientRect view))
                                          (height (getBoundingClientRect holder))))]
                    else []))
  else flexDirection a = "row"
       /\ gradientDirection a = "to right"
       /\ (anim a = "translateX(-100%)" \/ anim a = "translateX(100%)")
       /\ (forall c view holder,
              handleResize c (isVertical a) (attached view holder)
              = setDistance (width (getBoundingClientRect view))
                :: (if c then [setMFactor (JS.Math_ceil
                                  (JS.div (width (getBoundingClientRect view))
                                          (width (getBoundingClientRect holder))))]
                    else [])).
Proof.
  destruct a; cbn [isVertical axis_string JS.includes String.prefix];
    repeat split; auto.
Qed.

(** ** The copies of the content *)

Lemma string_of_nat_inj i j :
  NilEmpty.string_of_uint (Nat.to_uint i) = NilEmpty.string_of_uint (Nat.to_uint j) ->
  i = j.
Proof.
  intros H.
  apply (f_equal NilEmpty.uint_of_string) in H.
  rewrite !NilEmpty.usu in H. injection H as H.
  apply (f_equal Nat.of_uint) in H. rewrite !Unsigned.of_to in H. exact H.
Qed.

Lemma length_append (a b : string) :
  String.length (a ++ b) = (String.length a + String.length b)%nat.
Proof. induction a as [|x a IH]; cbn; [reflexivity|]. rewrite IH. reflexivity. Qed.

Lemma append_inj_r (a b c : string) : a ++ c = b ++ c -> a = b.
Proof.
  revert b. induction a as [|x a IH]; intros b H.
  - destruct b as [|y b]; [reflexivity|].
    apply (f_equal String.length) in H. cbn in H.
    rewrite length_append in H. lia.
  - destruct b as [|y b].
    + apply (f_equal String.length) in H. cbn in H.
      rewrite length_append in H. lia.
    + cbn in H. injection H as -> H. f_equal. apply IH, H.
Qed.

Lemma NoDup_map_inj {A B} (f : A -> B) l :
  (forall x y, f x = f y -> x = y) -> NoDup l -> NoDup (map f l).
Proof.
  intros Hf H. induction H as [|x l Hx Hl IH]; cbn; constructor; [|exact IH].
  intros Hin. apply in_map_iff in Hin as [y [E Hy]]. apply Hf in E. subst. tauto.
Qed.

Lemma mappedChildren_some x ks :
  mappedChildren x = Some ks ->
  exists n, JS.to_integer x = Some n /\ 0 <= n < 2 ^ 32
            /\ List.length ks = Z.to_nat n /\ NoDup ks.
Proof.
  unfold mappedChildren. destruct (JS.to_integer x) as [n|]; [|discriminate].
  destruct ((0 <=? n) && (n <? 2 ^ 32)) eqn:E; [|discriminate].
  intros H. injection H as <-.
  apply andb_true_iff in E as [E1 E2].
  apply Z.leb_le in E1. apply Z.ltb_lt in E2.
  exists n. split; [reflexivity|]. split; [lia|]. split.
  - rewrite length_map, length_seq. reflexivity.
  - apply NoDup_map_inj; [|apply seq_NoDup].
    intros i j H. apply string_of_nat_inj, (append_inj_r _ _ "0"), H.
Qed.

Lemma mappedChildren_none x :
  mappedChildren x = None <->
  (forall n, JS.to_integer x = Some n -> n < 0 \/ 2 ^ 32 <= n).
Proof.
  unfold mappedChildren. destruct (JS.to_integer x) as [n|].
  - destruct ((0 <=? n) && (n <? 2 ^ 32)) eqn:E.
    + apply andb_true_iff in E as [E1 E2].
      apply Z.leb_le in E1. apply Z.ltb_lt in E2.
      split; [discriminate|]. intros H. specialize (H n eq_refl). lia.
    + split; [|reflexivity]. intros _ m Hm. injection Hm as <-.
      apply andb_false_iff in E as [E|E];
        [apply Z.leb_gt in E|apply Z.ltb_ge in E]; lia.
  - split; [discriminate|reflexivity].
Qed.

(** X4. [mappedChildren]: when [Array(mFactor)] does not throw, [mFactor] is
    an integer from 0 to 2^32 - 1, there are exactly that many copies and
    their React keys are pairwise distinct; it throws exactly when [mFactor]
    is no such integer (a fraction, [NaN], an infinity, a negative or too
    large integer). *)
Theorem mappedChildren_keys x :
  match mappedChildren x with
  | Some ks =>
      exists n, JS.to_integer x = Some n /\ 0 <= n < 2 ^ 32
                /\ List.length ks = Z.to_nat n /\ NoDup ks
  | None => forall n, JS.to_integer x = Some n -> n < 0 \/ 2 ^ 32 <= n
  end.
Proof.
  destruct (mappedChildren x) as [ks|] eqn:M.
  - apply mappedChildren_some, M.
  - apply mappedChildren_none, M.
Qed.

(** ** Measuring, again *)

Lemma measure_all_uid st cycles : uid (measure_all st cycles) = uid st.
Proof.
  unfold measure_all. revert st.
  induction cycles as [|[p r] cycles IH]; intros st; [reflexivity|].
  cbn [fold_left fst snd]. rewrite IH.
  unfold measure, handleResize. destruct (viewRef r), (holderRef r); try reflexivity.
  destruct (clone_of p); reflexivity.
Qed.

Lemma measure_uid p st r : uid (measure p st r) = uid st.
Proof.
  unfold measure, handleResize. destruct (viewRef r), (holderRef r); try reflexivity.
  destruct (clone_of p); reflexivity.
Qed.

Lemma measure_until_throw_uid st cycles : uid (measure_until_throw st cycles) = uid st.
Proof.
  revert st. induction cycles as [|[p r] cycles IH]; intros st; [reflexivity|].
  cbn [measure_until_throw]. cbv zeta.
  destruct (render_throws (measure p st r)); [|rewrite IH]; apply measure_uid.
Qed.

(** X5. Measuring is idempotent: a second run of [handleResize] over the
    same elements, with nothing resized in between, changes nothing. *)
Theorem measure_idempotent props st refs :
  measure props (measure props st refs) refs = measure props st refs.
Proof.
  unfold measure, handleResize.
  destruct (viewRef refs), (holderRef refs); try reflexivity.
  destruct (clone_of props); reflexivity.
Qed.

(** X6. The state keeps no history of the sizes: after a measurement with
    both elements attached and cloning enabled, [distance] and [mFactor] are
    what this one measurement gives from any state, whatever cycles came
    before; the identifier is never touched. *)
Theorem last_measurement_wins props st st' cycles view holder :
  clone_of props = true ->
  let final := measure_all st (cycles ++ [(props, attached view holder)])%list in
  distance final = distance (measure props st' (attached view holder))
  /\ mFactor final = mFactor (measure props st' (attached view holder))
  /\ uid final = uid st.
Proof.
  intros Hc final. subst final. split; [|split]; [| |apply measure_all_uid].
  - unfold measure_all. rewrite fold_left_app. cbn [fold_left fst snd].
    rewrite !measure_attached, Hc. reflexivity.
  - unfold measure_all. rewrite fold_left_app. cbn [fold_left fst snd].
    rewrite !measure_attached, Hc. reflexivity.
Qed.

Lemma last_measurement_wins_witness :
  let cycles := [ (no_props, attached (element 320 40) (element 100 40));
                  (no_props, {| viewRef := None; holderRef := None |}) ] in
  let final := measure_all (initial_state no_props)
                 (cycles ++ [(no_props, attached (element 800 40) (element 100 40))])%list in
  clone_of no_props = true
  /\ distance final = JS.of_Z 800 /\ mFactor final = JS.of_Z 8 /\ uid final = None.
Proof.
  intros cycles final.
  destruct (last_measurement_wins no_props (initial_state no_props)
              (initial_state no_props) cycles (element 800 40) (element 100 40)
              eq_refl) as (Hd & Hm & Hu).
  split; [reflexivity|]. unfold final.
  split; [rewrite Hd; reflexivity|].
  split; [rewrite Hm; reflexivity|exact Hu].
Defined.

(** X7. The animation duration is never [NaN] and never [-0], whatever the
    three numbers are, and it is [0] as soon as [speed] or [distance] is
    [0] or [NaN]. *)
Theorem duration_never_nan speed distance balanceDistance :
  JS.is_nan (duration speed distance balanceDistance) = false
  /\ duration speed distance balanceDistance <> S754_zero true
  /\ (JS.truthy speed = false \/ JS.truthy distance = false ->
      duration speed distance balanceDistance = JS.zero).
Proof.
  unfold duration, JS.or_else.
  split; [|split].
  - destruct (JS.mul speed (JS.div distance balanceDistance)); reflexivity.
  - destruct (JS.mul speed (JS.div distance balanceDistance)); discriminate.
  - intros [H|H].
    + destruct speed as [s|s| |s m e]; try discriminate;
        destruct (JS.div distance balanceDistance); reflexivity.
    + assert (Hq : JS.truthy (JS.div distance balanceDistance) = false).
      { destruct distance as [s|s| |s m e]; try discriminate;
          destruct balanceDistance; reflexivity. }
      destruct (JS.div distance balanceDistance); try discriminate;
        destruct speed; reflexivity.
Qed.

(** ** The resize listener over the life of the component *)

Lemma remove_only h : removeEventListener h [h] = [].
Proof. unfold removeEventListener. cbn. rewrite Nat.eqb_refl. reflexivity. Qed.

(** After the effect ran, there is its handler alone; the render that
    follows keeps it or, if it throws, removes it. *)
Lemma rerender_settled w : settled_world w -> settled_world (rerender w).
Proof.
  unfold settled_world, rerender. intros H.
  destruct (mounted w) as [[p h]|] eqn:M; [|rewrite M; exact H].
  destruct (render_throws (state w)).
  - cbn. destruct H as (Hl & _). rewrite Hl. apply remove_only.
  - rewrite M. exact H.
Qed.

Lemma mount_settled props fresh refs : settled_world (mount props fresh refs).
Proof. apply rerender_settled. cbn. repeat split. Qed.

Lemma same_deps_true p q :
  same_deps p q = true ->
  clone_of p = clone_of q /\ isVertical (axis_of p) = isVertical (axis_of q).
Proof.
  unfold same_deps. intros H. apply andb_true_iff in H as [H1 H2].
  split; apply Bool.eqb_prop; assumption.
Qed.

Lemma step_settled w e : settled_world w -> settled_world (step w e).
Proof.
  intros H. destruct e as [props refs|refs|]; cbn [step].
  - unfold settled_world in H.
    destruct (mounted w) as [[old h]|] eqn:M; [|unfold settled_world; rewrite M; exact H].
    destruct H as (Hl & Hc & Hv).
    destruct (same_deps old props) eqn:D.
    + apply same_deps_true in D as [D1 D2]. cbn. repeat split; congruence.
    + apply rerender_settled. cbn. rewrite Hl, remove_only. repeat split.
  - apply rerender_settled. exact H.
  - unfold settled_world in *.
    destruct (mounted w) as [[old h]|] eqn:M; cbn; [|rewrite M; exact H].
    destruct H as (Hl & _). rewrite Hl. apply remove_only.
Qed.

Lemma run_settled w events : settled_world w -> settled_world (run w events).
Proof.
  unfold run. revert w. induction events as [|e events IH]; intros w H; cbn.
  - exact H.
  - apply IH, step_settled, H.
Qed.

(** X8. Through any history of re-renders, resizes and unmounting, the
    window holds at most one "resize" listener of the component: while it is
    mounted exactly the [handleResize] of the latest effect run, whose
    captured [clone] and [isVertical] are those of the current props (no
    stale closure); none after unmount. *)
Theorem one_listener_never_stale props fresh refs events :
  let w := run (mount props fresh refs) events in
  match mounted w with
  | Some (p, h) =>
      listeners w = [h] /\ h_clone h = clone_of p
      /\ h_vertical h = isVertical (axis_of p)
  | None => listeners w = []
  end.
Proof. apply run_settled, mount_settled. Qed.

(** Once unmounted, always unmounted, and the state is never written. *)
Lemma step_unmounted w e :
  mounted w = None -> listeners w = [] -> step w e = w.
Proof.
  intros M L. destruct w as [ls n m st]. cbn in M, L. subst.
  destruct e; reflexivity.
Qed.

Lemma run_unmounted w events :
  mounted w = None -> listeners w = [] -> run w events = w.
Proof.
  intros M L. unfold run. induction events as [|e events IH]; [reflexivity|].
  cbn [fold_left]. rewrite step_unmounted by assumption. exact IH.
Qed.

Lemma unmounted_listeners w : settled_world w -> mounted w = None -> listeners w = [].
Proof. unfold settled_world. intros H M. rewrite M in H. exact H. Qed.

(** What the render after a commit leaves behind. *)
Lemma rerender_state w : state (rerender w) = state w.
Proof.
  unfold rerender. destruct (mounted w) as [[p h]|]; [|reflexivity].
  destruct (render_throws (state w)); reflexivity.
Qed.

Lemma rerender_mounted w p h :
  mounted w = Some (p, h) ->
  mounted (rerender w) = if render_throws (state w) then None else Some (p, h).
Proof.
  unfold rerender. intros M. rewrite M.
  destruct (render_throws (state w)); [reflexivity|exact M].
Qed.

(** One event against a mounted component: a re-render with the same
    dependencies changes the props only; a re-render with other dependencies
    and a resize run one measurement cycle, after which the component is
    mounted if and only if the new state renders; unmounting ends it. *)
Lemma step_mounted w p h e :
  settled_world w -> mounted w = Some (p, h) ->
  match e with
  | Rerender q r =>
      if same_deps p q
      then state (step w e) = state w /\ mounted (step w e) = Some (q, h)
      else state (step w e) = measure q (state w) r
           /\ if render_throws (measure q (state w) r)
              then mounted (step w e) = None
              else exists h', mounted (step w e) = Some (q, h')
  | Resize r =>
      state (step w e) = measure p (state w) r
      /\ if render_throws (measure p (state w) r)
         then mounted (step w e) = None
         else mounted (step w e) = Some (p, h)
  | Unmount => state (step w e) = state w /\ mounted (step w e) = None
  end.
Proof.
  intros H M. unfold settled_world in H. rewrite M in H.
  destruct H as (Hl & Hc & Hv).
  destruct e as [q r|r|]; cbn [step]; rewrite ?M.
  - destruct (same_deps p q); [split; reflexivity|].
    rewrite rerender_state.
    split; [reflexivity|].
    erewrite rerender_mounted by reflexivity.
    change (state (cloning_effect q r (cleanup h w))) with (measure q (state w) r).
    destruct (render_throws (measure q (state w) r)); [reflexivity|].
    eexists. reflexivity.
  - assert (Hs : state (dispatch r w) = measure p (state w) r).
    { cbn [dispatch state]. rewrite Hl. cbn [fold_left].
      unfold measure. rewrite Hc, Hv. reflexivity. }
    rewrite rerender_state. split; [exact Hs|].
    rewrite (rerender_mounted _ p h) by exact M. rewrite Hs.
    destruct (render_throws (measure p (state w) r)); reflexivity.
  - split; reflexivity.
Qed.

Lemma cycles_of_none events : cycles_of None events = [].
Proof. induction events as [|[p r|r|] events IH]; cbn; auto. Qed.

(** The state of a mounted component after any events. *)
Lemma run_until_throw w p h events :
  settled_world w -> mounted w = Some (p, h) ->
  state (run w events) = measure_until_throw (state w) (cycles_of (Some p) events).
Proof.
  revert w p h. induction events as [|e events IH]; intros w p h H M; [reflexivity|].
  change (run w (e :: events)) with (run (step w e) events).
  pose proof (step_settled w e H) as H'.
  pose proof (step_mounted w p h e H M) as S.
  destruct e as [q r|r|]; cbn [cycles_of].
  - destruct (same_deps p q).
    + destruct S as [Hs Hm]. rewrite (IH _ q h H' Hm), Hs. reflexivity.
    + destruct S as [Hs Hm]. cbn [measure_until_throw]. cbv zeta.
      destruct (render_throws (measure q (state w) r)).
      * rewrite run_unmounted by (try apply unmounted_listeners; assumption).
        exact Hs.
      * destruct Hm as [h' Hm]. rewrite (IH _ q h' H' Hm), Hs. reflexivity.
  - destruct S as [Hs Hm]. cbn [measure_until_throw]. cbv zeta.
    destruct (render_throws (measure p (state w) r)).
    + rewrite run_unmounted by (try apply unmounted_listeners; assumption).
      exact Hs.
    + rewrite (IH _ p h H' Hm), Hs. reflexivity.
  - destruct S as [Hs Hm].
    rewrite run_unmounted by (try apply unmounted_listeners; assumption).
    rewrite cycles_of_none. exact Hs.
Qed.

(** As long as it stays mounted, no cycle is lost. *)
Lemma run_still_mounted w p h events :
  settled_world w -> mounted w = Some (p, h) ->
  mounted (run w events) <> None ->
  state (run w events) = measure_all (state w) (cycles_of (Some p) events).
Proof.
  revert w p h. induction events as [|e events IH]; intros w p h H M N; [reflexivity|].
  change (run w (e :: events)) with (run (step w e) events) in *.
  pose proof (step_settled w e H) as H'.
  pose proof (step_mounted w p h e H M) as S.
  assert (Hgone : mounted (step w e) = None -> False).
  { intros Hm. apply N.
    rewrite run_unmounted by (try apply unmounted_listeners; assumption).
    exact Hm. }
  unfold measure_all in *.
  destruct e as [q r|r|]; cbn [cycles_of].
  - destruct (same_deps p q).
    + destruct S as [Hs Hm]. rewrite (IH _ q h H' Hm N), Hs. reflexivity.
    + destruct S as [Hs Hm]. cbn [fold_left fst snd].
      destruct (render_throws (measure q (state w) r)); [contradiction (Hgone Hm)|].
      destruct Hm as [h' Hm]. rewrite (IH _ q h' H' Hm N), Hs. reflexivity.
  - destruct S as [Hs Hm]. cbn [fold_left fst snd].
    destruct (render_throws (measure p (state w) r)); [contradiction (Hgone Hm)|].
    rewrite (IH _ p h H' Hm N), Hs. reflexivity.
  - destruct S as [_ Hm]. contradiction (Hgone Hm).
Qed.

(** The world right after mounting. *)
Lemma mount_state props fresh refs :
  state (mount props fresh refs)
  = measure props (commit (initial_state props) [setUid fresh]) refs.
Proof. unfold mount. rewrite rerender_state. reflexivity. Qed.

Lemma mount_mounted props fresh refs :
  if render_throws (state (mount props fresh refs))
  then mounted (mount props fresh refs) = None
  else exists h, mounted (mount props fresh refs) = Some (props, h).
Proof.
  rewrite mount_state. unfold mount.
  erewrite rerender_mounted by reflexivity.
  change (state (cloning_effect props refs _))
    with (measure props (commit (initial_state props) [setUid fresh]) refs).
  destruct (render_throws _); [reflexivity|eexists; reflexivity].
Qed.

Lemma lifecycle_state props fresh refs events :
  state (run (mount props fresh refs) events)
  = measure_until_throw (commit (initial_state props) [setUid fresh])
      ((props, refs) :: cycles_of (Some props) events).
Proof.
  pose proof (mount_settled props fresh refs) as H.
  pose proof (mount_mounted props fresh refs) as M.
  pose proof (mount_state props fresh refs) as S.
  cbn [measure_until_throw]. cbv zeta. rewrite <- S.
  destruct (render_throws (state (mount props fresh refs))).
  - rewrite run_unmounted by (try apply unmounted_listeners; assumption).
    reflexivity.
  - destruct M as [h M]. apply (run_until_throw _ props h); assumption.
Qed.

(** X9. The component with its effects, listeners and renders computes
    what the chain of measurement cycles computes: the first measurement,
    then one cycle for every resize and for every re-render that changed
    [clone] or the orientation.  The chain ends with the first cycle that
    stores a state the next render cannot show ([mFactor] no array length):
    that render throws, the component is unmounted and later events measure
    nothing.  Whenever the component is still mounted after the events, no
    cycle was cut off and the state is [measure_all] of all the cycles. *)
Theorem lifecycle_is_measure_all props fresh refs events :
  let w := run (mount props fresh refs) events in
  let first := commit (initial_state props) [setUid fresh] in
  let cycles := (props, refs) :: cycles_of (Some props) events in
  state w = measure_until_throw first cycles
  /\ (mounted w <> None -> state w = measure_all first cycles).
Proof.
  intros w first cycles. split; [apply lifecycle_state|].
  intros N. subst w first cycles.
  pose proof (mount_settled props fresh refs) as H.
  pose proof (mount_mounted props fresh refs) as M.
  pose proof (mount_state props fresh refs) as S.
  destruct (render_throws (state (mount props fresh refs))).
  - exfalso. apply N.
    rewrite run_unmounted by (try apply unmounted_listeners; assumption).
    exact M.
  - destruct M as [h M].
    rewrite (run_still_mounted _ props h) by assumption.
    rewrite S. reflexivity.
Qed.

Lemma lifecycle_is_measure_all_witness :
  let events := [ Resize (attached (element 800 40) (element 100 40));
                  Resize (attached (element 800 40) (element 0 0));
                  Resize (attached (element 320 40) (element 100 40)) ] in
  let refs := attached (element 320 40) (element 100 40) in
  let first := commit (initial_state no_props) [setUid "anim-17"] in
  (mounted (run (mount no_props "anim-17" refs) (firstn 1 events)) <> None
   /\ state (run (mount no_props "anim-17" refs) (firstn 1 events))
      = measure_all first ((no_props, refs) :: cycles_of (Some no_props) (firstn 1 events))
   /\ mFactor (state (run (mount no_props "anim-17" refs) (firstn 1 events)))
      = JS.of_Z 8)
  /\ mounted (run (mount no_props "anim-17" refs) events) = None
  /\ mFactor (state (run (mount no_props "anim-17" refs) events)) = JS.Infinity.
Proof.
  intros events refs first.
  assert (N : mounted (run (mount no_props "anim-17" refs) (firstn 1 events)) <> None)
    by (vm_compute; discriminate).
  split; [|split; vm_compute; reflexivity].
  split; [exact N|].
  split; [|vm_compute; reflexivity].
  apply (lifecycle_is_measure_all no_props "anim-17" refs (firstn 1 events)), N.
Defined.

(** X10. The clean-up works: after unmount no listener of the component is
    left on the window, and no later resize (or stray re-render) changes
    its state. *)
Theorem unmount_stops_updates props fresh refs events later :
  let before := run (mount props fresh refs) events in
  let after := run (step before Unmount) later in
  state after = state before /\ listeners after = [] /\ mounted after = None.
Proof.
  intros before after.
  assert (Hb : settled_world before) by apply run_settled, mount_settled.
  assert (Hu : settled_world (step before Unmount)) by apply step_settled, Hb.
  assert (Hm : mounted (step before Unmount) = None).
  { cbn. destruct (mounted before) as [[p h]|] eqn:M; [reflexivity|exact M]. }
  assert (Hs : state (step before Unmount) = state before).
  { cbn. destruct (mounted before) as [[p h]|]; reflexivity. }
  pose proof (unmounted_listeners _ Hu Hm) as Hl.
  subst after. rewrite run_unmounted by assumption.
  split; [exact Hs|]. split; [exact Hl|exact Hm].
Qed.

(** ** The rendered tree *)

Lemma copies_of_fragments ks :
  list_sum (map content_copies (map (fun k => FragmentElement k [Children]) ks))
  = List.length ks.
Proof.
  induction ks as [|k ks IH]; [reflexivity|].
  change (S (list_sum (map content_copies
                (map (fun k => FragmentElement k [Children]) ks)))
          = S (List.length ks)).
  f_equal. exact IH.
Qed.

(** A render throws exactly when [Array(mFactor)] does. *)
Lemma render_throws_spec props st fresh :
  render_throws st = true <-> MarqueeSlider props st fresh = None.
Proof.
  unfold render_throws, MarqueeSlider.
  destruct (mappedChildren (mFactor st)); split; (discriminate || reflexivity).
Qed.

(** X11. One render shows the content [1 + 2 * mFactor] times: once in the
    hidden holder that is measured and [mFactor] times in each of the two
    tracks; and the render throws exactly when [mFactor] is not an array
    length. *)
Theorem render_copies props st fresh :
  match MarqueeSlider props st fresh with
  | Some nodes =>
      exists n, JS.to_integer (mFactor st) = Some n /\ 0 <= n < 2 ^ 32
                /\ list_sum (map content_copies nodes) = (1 + 2 * Z.to_nat n)%nat
  | None =>
      forall n, JS.to_integer (mFactor st) = Some n -> n < 0 \/ 2 ^ 32 <= n
  end.
Proof.
  unfold MarqueeSlider.
  destruct (mappedChildren (mFactor st)) as [ks|] eqn:M.
  - destruct (mappedChildren_some _ _ M) as (n & Hn & Hr & Hl & _).
    exists n. split; [exact Hn|]. split; [exact Hr|].
    set (copies := map (fun k => FragmentElement k [Children]) ks).
    pose proof (copies_of_fragments ks) as Hc. fold copies in Hc.
    cbn [map list_sum content_copies]. rewrite Hc, Hl.
    unfold list_sum. cbn [fold_right]. lia.
  - apply mappedChildren_none, M.
Qed.

(** ** One identifier *)

Lemma get_clone_animation props st :
  get_prop "animation" (clone_track_style props st)
  = get_prop "animation" (track_style props st).
Proof. rewrite get_clone_track_style, track_style_animation. reflexivity. Qed.

(** X12. The identifier is drawn once: after mounting, through all events,
    the [uid] state stays the identifier the first effect stored, so
    [validUid] ignores any later draw, the style sheet is generated for
    this identifier, and the [animation] of both tracks names it.  Only the
    very first render, before the effects, differs: its keyframes carry a
    throw-away identifier while the tracks' animation is named [null]. *)
Theorem uid_is_stable props fresh refs events p fresh' :
  let w := run (mount props fresh refs) events in
  uid (state w) = Some fresh
  /\ validUid (uid (state w)) fresh' = fresh
  /\ (forall nodes, MarqueeSlider p (state w) fresh' = Some nodes ->
        hd_error nodes
        = Some (StyleElement (animationStyle fresh (axis_of p) (pauseOnHover_of p))))
  /\ animation_name (track_style p (state w)) = Some (Uid (Some fresh))
  /\ animation_name (clone_track_style p (state w)) = Some (Uid (Some fresh))
  /\ validUid (uid (initial_state props)) fresh' = fresh'
  /\ animation_name (track_style props (initial_state props)) = Some (Uid None).
Proof.
  intros w.
  assert (Hu : uid (state w) = Some fresh).
  { unfold w. rewrite lifecycle_state, measure_until_throw_uid. reflexivity. }
  split; [exact Hu|]. split; [rewrite Hu; reflexivity|]. split; [|split; [|split]].
  - intros nodes. unfold MarqueeSlider. rewrite Hu.
    destruct (mappedChildren (mFactor (state w))); [|discriminate].
    intros H. injection H as <-. reflexivity.
  - unfold animation_name. rewrite track_style_animation, Hu. reflexivity.
  - unfold animation_name. rewrite get_clone_animation, track_style_animation, Hu.
    reflexivity.
  - split; [reflexivity|].
    unfold animation_name. rewrite track_style_animation. reflexivity.
Qed.

(** ** Identifiers: [randomUID]

    Rounding to nearest, from above. *)

Lemma shr_1_r mrs : 0 <= shr_m mrs -> shr_r (shr_1 mrs) = Z.odd (shr_m mrs).
Proof.
  destruct mrs as [m r s]; cbn [shr_m shr_1].
  destruct m as [|p|p]; [reflexivity| |lia]. intros _.
  destruct p; reflexivity.
Qed.

Lemma round_nearest_even_le m r s :
  round_nearest_even m (loc_of_shr_record (Build_shr_record m r s))
  <= m + (if r then 1 else 0).
Proof.
  destruct r, s; cbn; try lia. destruct (Z.even m); lia.
Qed.

(** After [n] shifts of an exact [P], rounding to nearest even overshoots
    [P] by half a unit at most. *)
Lemma iter_shr_1_round P n :
  0 <= P ->
  let rec := Nat.iter n shr_1 (Build_shr_record P false false) in
  2 * (round_nearest_even (shr_m rec) (loc_of_shr_record rec) * 2 ^ Z.of_nat n)
  <= 2 * P + 2 ^ Z.of_nat n.
Proof.
  intros HP. destruct n as [|k].
  - intros rec. subst rec.
    cbn [Nat.iter nat_rect shr_m loc_of_shr_record round_nearest_even Z.of_nat].
    rewrite Z.pow_0_r. lia.
  - intros rec. subst rec.
    change (Nat.iter (S k) shr_1 ?x) with (shr_1 (Nat.iter k shr_1 x)).
    set (prev := Nat.iter k shr_1 (Build_shr_record P false false)).
    assert (Hm : shr_m prev = P / 2 ^ Z.of_nat k).
    { unfold prev. rewrite iter_shr_1_div by exact HP. reflexivity. }
    pose proof (Z.pow_pos_nonneg 2 (Z.of_nat k) ltac:(lia) ltac:(lia)) as Hk.
    assert (Hp : 0 <= shr_m prev).
    { rewrite Hm. apply Z.div_pos; lia. }
    pose proof (shr_1_r prev Hp) as Hr.
    pose proof (shr_1_div2 prev Hp) as Hd.
    destruct (shr_1 prev) as [m r s]. cbn [shr_m shr_r] in *.
    pose proof (round_nearest_even_le m r s) as Hle.
    rewrite Nat2Z.inj_succ, Z.pow_succ_r by lia.
    pose proof (Z_div_mod_eq_full P (2 ^ Z.of_nat k)) as E1.
    pose proof (Z.mod_pos_bound P (2 ^ Z.of_nat k) Hk) as B1.
    pose proof (Z_div_mod_eq_full (shr_m prev) 2) as E2.
    pose proof (Z.mod_pos_bound (shr_m prev) 2 ltac:(lia)) as B2.
    rewrite <- Hd in E2. rewrite <- Hm in E1.
    destruct r.
    + symmetry in Hr. apply Z.odd_spec in Hr as [t Ht].
      assert (shr_m prev mod 2 = 1) by lia.
      nia.
    + nia.
Qed.

Lemma Zdigits2_le_of_lt P k : 0 <= P < 2 ^ k -> 0 <= k -> Zdigits2 P <= k.
Proof.
  intros [H0 H] Hk. destruct (Z.eq_dec P 0) as [->|N]; [cbn; lia|].
  pose proof (Zdigits2_bounds P ltac:(lia)) as [Hlo _].
  assert (Hlt : 2 ^ (Zdigits2 P - 1) < 2 ^ k) by lia.
  apply Z.pow_lt_mono_r_iff in Hlt; lia.
Qed.

(** What rounding an exact value [P * 2^E] gives: a mantissa and exponent
    whose value is at most half a unit of the first shift above. *)
Lemma round_exact_upper s P E :
  0 <= P ->
  let n := Z.max 0 (fexp JS.prec JS.emax (Zdigits2 P + E) - E) in
  exists m2 e2,
    binary_round_aux JS.prec JS.emax s P E loc_Exact
    = match m2 with
      | Z0 => S754_zero s
      | Zpos p => if e2 <=? JS.emax - JS.prec then S754_finite s p e2
                  else S754_infinity s
      | Zneg _ => S754_nan
      end
    /\ 0 <= m2 /\ E <= e2
    /\ 2 * (m2 * 2 ^ (e2 - E)) <= 2 * P + 2 ^ n.
Proof.
  intros HP n. unfold binary_round_aux.
  destruct (shr_fexp_result P E loc_Exact HP) as [Hm1 He1]. fold n in Hm1, He1.
  assert (Hround :
    2 * (round_nearest_even (shr_m (fst (shr_fexp JS.prec JS.emax P E loc_Exact)))
           (loc_of_shr_record (fst (shr_fexp JS.prec JS.emax P E loc_Exact)))
         * 2 ^ n) <= 2 * P + 2 ^ n).
  { unfold shr_fexp, shr. cbn [shr_record_of_loc].
    unfold n.
    destruct (fexp JS.prec JS.emax (Zdigits2 P + E) - E) as [|p|p]; cbn [fst].
    - cbn [shr_m loc_of_shr_record round_nearest_even].
      rewrite Z.max_l, Z.pow_0_r by lia. lia.
    - rewrite iter_pos_nat. rewrite Z.max_r by lia.
      rewrite <- (positive_nat_Z p). apply iter_shr_1_round, HP.
    - cbn [shr_m loc_of_shr_record round_nearest_even].
      rewrite Z.max_l, Z.pow_0_r by lia. lia. }
  destruct (shr_fexp JS.prec JS.emax P E loc_Exact) as [rec1 e1].
  cbn [fst snd] in *.
  set (m1 := round_nearest_even (shr_m rec1) (loc_of_shr_record rec1)) in *.
  assert (Hm1' : 0 <= m1).
  { apply round_nearest_even_nonneg. rewrite Hm1.
    apply Z.div_pos; [lia|apply Z.pow_pos_nonneg; lia]. }
  destruct (shr_fexp_result m1 e1 loc_Exact Hm1') as [Hm2 He2].
  destruct (shr_fexp JS.prec JS.emax m1 e1 loc_Exact) as [rec2 e2].
  cbn [fst snd] in *.
  set (n2 := Z.max 0 (fexp JS.prec JS.emax (Zdigits2 m1 + e1) - e1)) in *.
  exists (shr_m rec2), e2. split; [reflexivity|].
  pose proof (Z.pow_pos_nonneg 2 n2 ltac:(lia) ltac:(lia)) as Hp2.
  pose proof (Z.pow_pos_nonneg 2 n ltac:(lia) ltac:(lia)) as Hpn.
  assert (Hfl : shr_m rec2 * 2 ^ n2 <= m1).
  { rewrite Hm2, Z.mul_comm. apply Z.mul_div_le. lia. }
  split; [rewrite Hm2; apply Z.div_pos; lia|].
  split; [lia|].
  replace (e2 - E) with (n2 + n) by lia.
  rewrite Z.pow_add_r by lia. nia.
Qed.

Lemma toString_integer x n :
  JS.to_integer x = Some n -> Z.abs n < 10 ^ 21 ->
  Number_toString x = Some (decimal n).
Proof.
  intros H Hn. unfold Number_toString.
  destruct x as [s|s| |s m e]; try discriminate; rewrite H;
    (destruct (Z.abs n <? 10 ^ 21) eqn:E; [reflexivity|apply Z.ltb_ge in E; lia]).
Qed.

(** A valid number below 1: its value is at most [1 - 2^e]. *)
Lemma below_one m e :
  JS.valid (S754_finite false m e) = true ->
  JS.ltb (S754_finite false m e) JS.one = true ->
  emin JS.prec JS.emax <= e < 0 /\ Zpos m + 1 <= 2 ^ (- e).
Proof.
  intros Hv Hlt.
  pose proof (valid_digits _ _ _ Hv) as Hd.
  pose proof (digits2_bounds m) as [Blo Bhi].
  unfold JS.valid, valid_binary, bounded, canonical_mantissa in Hv.
  apply andb_true_iff in Hv as [Hc _]. apply Z.eqb_eq in Hc.
  unfold fexp, emin, JS.prec, JS.emax in *.
  unfold JS.ltb, SFltb, JS.one, SFcompare in Hlt.
  destruct (e ?= -52) eqn:C.
  - apply Z.compare_eq in C. subst e.
    destruct (Pos.compare_cont Eq m 4503599627370496) eqn:Cm; try discriminate.
    rewrite Pos.compare_cont_spec in Cm.
    destruct (Pos.compare_spec m 4503599627370496) as [Cq|Cq|Cq]; try discriminate.
    clear Blo Bhi Hd Hc Cm Hlt. change (2 ^ (- (-52))) with 4503599627370496.
    apply Pos2Z.pos_lt_pos in Cq. split; [lia|lia].
  - change (e < -52) in C. split; [lia|].
    assert (Hle : 2 ^ Zpos (digits2_pos m) <= 2 ^ (- e)).
    { apply Z.pow_le_mono_r; lia. }
    lia.
  - discriminate.
Qed.

(** [Math.floor(r * 1000)] for [r] below 1 is one of 0 .. 999. *)
Lemma floor_of_thousandfold r :
  unit_interval r = true ->
  exists k, 0 <= k <= 999
            /\ JS.to_integer (Math_floor (JS.mul r (JS.of_Z 1000))) = Some k.
Proof.
  unfold unit_interval. intros H.
  apply andb_true_iff in H as [H Hlt]. apply andb_true_iff in H as [Hv Hge].
  destruct r as [s|s| |s m e]; try discriminate; try (destruct s; discriminate).
  { exists 0. split; [lia|]. destruct s; reflexivity. }
  destruct s; [discriminate|].
  destruct (below_one m e Hv Hlt) as [He Hm].
  change (JS.of_Z 1000) with (S754_finite false 8796093022208000 (-43)).
  unfold JS.mul, SFmul. cbn [xorb].
  set (M := 8796093022208000%positive).
  destruct (round_exact_upper false (Zpos (m * M)) (e + -43) ltac:(lia))
    as (m2 & e2 & Hres & Hm2 & He2 & Hup).
  rewrite Hres. clear Hres.
  set (E := e + -43) in *.
  assert (Hn : Z.max 0 (fexp JS.prec JS.emax (Zdigits2 (Zpos (m * M)) + E) - E) <= 53).
  { pose proof (valid_digits _ _ _ Hv) as Hd.
    pose proof (digits2_bounds m) as [_ Bhi].
    assert (HP : Zdigits2 (Zpos (m * M)) <= 106).
    { apply Zdigits2_le_of_lt; [|lia]. split; [lia|].
      rewrite Pos2Z.inj_mul.
      assert (Zpos m < 2 ^ 53).
      { eapply Z.lt_le_trans; [exact Bhi|]. apply Z.pow_le_mono_r; lia. }
      assert (Zpos M < 2 ^ 53) by (vm_compute; reflexivity).
      change (2 ^ 106) with (2 ^ 53 * 2 ^ 53). nia. }
    unfold fexp, emin, JS.prec, JS.emax, E in *. lia. }
  match type of Hup with _ <= 2 * _ + 2 ^ ?k => set (n := k) in * end.
  assert (Hpn : 2 ^ n <= 2 ^ 53) by (apply Z.pow_le_mono_r; lia).
  assert (Hbound : m2 * 2 ^ (e2 - E) < 1000 * 2 ^ (- E)).
  { replace (- E) with (43 + - e) by (unfold E; lia).
    rewrite Z.pow_add_r by lia.
    rewrite Pos2Z.inj_mul in Hup.
    change (2 ^ 43) with 8796093022208. change (2 ^ 53) with 9007199254740992 in Hpn.
    change (Zpos M) with 8796093022208000 in Hup. nia. }
  destruct m2 as [|p|p]; [exists 0; split; [lia|reflexivity]| |lia].
  pose proof (Z.pow_pos_nonneg 2 (e2 - E) ltac:(lia) ltac:(lia)) as Hp1.
  pose proof (Z.pow_pos_nonneg 2 (- E) ltac:(lia) ltac:(unfold E; lia)) as Hp2.
  assert (He210 : e2 < 10).
  { assert (Hlt2 : 2 ^ (e2 - E) < 2 ^ (10 - E)).
    { replace (10 - E) with (10 + - E) by lia.
      rewrite (Z.pow_add_r 2 10) by (unfold E; lia).
      change (2 ^ 10) with 1024. nia. }
    apply Z.pow_lt_mono_r_iff in Hlt2; unfold E in *; lia. }
  replace (e2 <=? JS.emax - JS.prec) with true
    by (symmetry; apply Z.leb_le; unfold JS.emax, JS.prec; lia).
  destruct e2 as [|j|j].
  - exists (Zpos p). split; [|reflexivity].
    replace (0 - E) with (- E) in Hbound by lia. nia.
  - exists (Z.shiftl (Zpos p) (Zpos j)). split; [|reflexivity].
    rewrite Z.shiftl_mul_pow2 by lia.
    replace (Zpos j - E) with (Zpos j + - E) in Hbound by lia.
    rewrite Z.pow_add_r in Hbound by (unfold E; lia).
    pose proof (Z.pow_pos_nonneg 2 (Zpos j) ltac:(lia) ltac:(lia)). nia.
  - assert (Hpj : Zpos p < 1000 * 2 ^ Zpos j).
    { replace (- E) with (Zpos j + (Zneg j - E)) in Hbound by lia.
      rewrite Z.pow_add_r in Hbound by lia. nia. }
    pose proof (Z.pow_pos_nonneg 2 (Zpos j) ltac:(lia) ltac:(lia)) as Hpj0.
    cbn [Math_floor].
    rewrite Z.shiftl_mul_pow2, Z.shiftr_div_pow2 by lia.
    set (q := Zpos p / 2 ^ Zpos j).
    assert (Hq : 0 <= q < 1000).
    { unfold q. split; [apply Z.div_pos; lia|].
      apply Z.div_lt_upper_bound; lia. }
    destruct (q * 2 ^ Zpos j =? Zpos p) eqn:Hx.
    + exists q. split; [lia|]. cbn [JS.to_integer].
      rewrite Z.shiftl_mul_pow2, Z.shiftr_div_pow2 by lia. fold q.
      rewrite Hx. reflexivity.
    + destruct (q =? 0) eqn:Hq0.
      * exists 0. split; [lia|reflexivity].
      * apply Z.eqb_neq in Hq0. exists q. split; [lia|].
        apply to_integer_of_Z.
        assert (Hd : Zdigits2 q <= 10).
        { apply Zdigits2_le_of_lt; [|lia]. change (2 ^ 10) with 1024. lia. }
        destruct q as [|q'|q']; try lia. cbn [Z.abs Z.to_pos].
        cbn [Zdigits2] in Hd. lia.
Qed.

Lemma decimal_small k :
  0 <= k <= 999 ->
  all_digits (decimal k) = true /\ (1 <= String.length (decimal k) <= 3)%nat.
Proof.
  intros Hk.
  assert (Hall : forallb (fun i => all_digits (decimal (Z.of_nat i))
                                   && ((1 <=? String.length (decimal (Z.of_nat i)))%nat
                                   && (String.length (decimal (Z.of_nat i)) <=? 3)%nat))
                         (seq 0 1000) = true) by (vm_compute; reflexivity).
  rewrite forallb_forall in Hall.
  assert (Hin : In (Z.to_nat k) (seq 0 1000)) by (apply in_seq; lia).
  apply Hall in Hin. rewrite Z2Nat.id in Hin by lia.
  apply andb_true_iff in Hin as [Ha Hl].
  apply andb_true_iff in Hl as [Hl1 Hl2].
  apply Nat.leb_le in Hl1, Hl2. auto.
Qed.

Lemma all_digits_app a b :
  all_digits a = true -> all_digits b = true -> all_digits (a ++ b) = true.
Proof.
  induction a as [|c a IH]; cbn [all_digits append]; [auto|].
  intros [Hc Ha]%andb_true_iff Hb. rewrite Hc. cbn [andb]. auto.
Qed.

(** Ten draws below 1 give ten printed integers of one to three digits. *)
Lemma join_draws (random : nat -> number) (l : list nat) :
  (forall i, In i l -> unit_interval (random i) = true) ->
  exists digits,
    join_empty (map (fun i => Number_toString
                                (Math_floor (JS.mul (random i) (JS.of_Z 1000)))) l)
    = Some digits
    /\ all_digits digits = true
    /\ (List.length l <= String.length digits <= 3 * List.length l)%nat.
Proof.
  induction l as [|i l IH]; intros H.
  - exists "". cbn. repeat split; lia.
  - destruct IH as (ds & Hj & Ha & Hl); [intros; apply H; right; assumption|].
    destruct (floor_of_thousandfold (random i)) as (k & Hk & Hf);
      [apply H; left; reflexivity|].
    destruct (decimal_small k Hk) as [Hd Hn].
    exists (decimal k ++ ds).
    cbn [map join_empty].
    rewrite (toString_integer _ k Hf) by (change (10 ^ 21) with 1000000000000000000000; lia).
    rewrite Hj. split; [reflexivity|]. split; [apply all_digits_app; assumption|].
    rewrite length_append. cbn [List.length]. lia.
Qed.

(** X13. [randomUID] always returns an identifier of the same shape:
    whatever ten numbers from 0 up to, not including, 1 [Math.random]
    draws, each [Math.floor(r * 1000)] is an integer from 0 to 999, and the
    result is "anim-" followed by ten to thirty decimal digits. *)
Theorem randomUID_format (random : nat -> number) :
  (forall i, (i < 10)%nat -> unit_interval (random i) = true) ->
  exists digits,
    randomUID random = Some ("anim-" ++ digits)
    /\ all_digits digits = true
    /\ (10 <= String.length digits <= 30)%nat.
Proof.
  intros H.
  destruct (join_draws random (seq 0 10)) as (ds & Hj & Ha & Hl).
  { intros i Hi. apply H. apply in_seq in Hi. lia. }
  exists ds. unfold randomUID. rewrite Hj.
  rewrite length_seq in Hl. repeat split; try assumption; lia.
Qed.

Lemma randomUID_format_witness :
  (forall i, (i < 10)%nat -> unit_interval (sample_random i) = true)
  /\ randomUID sample_random = Some "anim-0111222333444555666777888999"
  /\ exists digits,
    randomUID sample_random = Some ("anim-" ++ digits)
    /\ all_digits digits = true
    /\ (10 <= String.length digits <= 30)%nat.
Proof.
  assert (H : forall i, (i < 10)%nat -> unit_interval (sample_random i) = true).
  { intros i Hi.
    do 10 (destruct i as [|i]; [vm_compute; reflexivity|]). lia. }
  split; [exact H|]. split; [vm_compute; reflexivity|].
  apply (randomUID_format sample_random H).
Defined.

(** ** The class of the tracks *)

Lemma trim_start_keeps c s : is_white c = false -> trim_start (String c s) = String c s.
Proof. intros H. cbn [trim_start]. rewrite H. reflexivity. Qed.

Lemma space_is_white c : is_space c = true -> is_white c = true.
Proof.
  unfold is_space, is_white. cbv zeta.
  intros H. repeat (apply orb_true_iff in H as [H|H]); apply Nat.eqb_eq in H;
    rewrite H; reflexivity.
Qed.

(** [trimEnd] keeps a prefix without white space, and what it keeps after
    the prefix is nothing or starts with the space that followed. *)
Lemma trim_end_prefix a c :
  no_white a = true ->
  exists t, trim_end (a ++ " " ++ c) = a ++ t
            /\ (t = "" \/ exists t', t = String " " t').
Proof.
  induction a as [|x a IH]; cbn [no_white append] in *.
  - intros _. cbn [trim_end]. destruct (trim_end c) as [|d kept].
    + exists "". split; [reflexivity|left; reflexivity].
    + exists (String " " (String d kept)). split; [reflexivity|].
      right. eexists. reflexivity.
  - intros [Hx Ha]%andb_true_iff. apply negb_true_iff in Hx.
    destruct (IH Ha) as (t & E & Ht). exists t. split; [|exact Ht].
    cbn [trim_end]. rewrite E, Hx. destruct (a ++ t) eqn:Eat; reflexivity.
Qed.

Lemma first_token_prefix a t :
  no_white a = true -> (t = "" \/ exists t', t = String " " t') ->
  first_token (a ++ t) = a.
Proof.
  intros Ha Ht. induction a as [|x a IH]; cbn [no_white append first_token] in *.
  - destruct Ht as [->|[t' ->]]; reflexivity.
  - apply andb_true_iff in Ha as [Hx Ha]. apply negb_true_iff in Hx.
    destruct (is_space x) eqn:S; [apply space_is_white in S; congruence|].
    rewrite IH by exact Ha. reflexivity.
Qed.

Lemma trim_end_space a : no_white a = true -> trim_end (a ++ " ") = a.
Proof.
  induction a as [|c a IH]; cbn [no_white append]; [reflexivity|].
  intros [Hc Ha]%andb_true_iff. apply negb_true_iff in Hc.
  cbn [trim_end]. rewrite IH by exact Ha. rewrite Hc.
  destruct a; reflexivity.
Qed.

Lemma no_white_app a b :
  no_white a = true -> no_white b = true -> no_white (a ++ b) = true.
Proof.
  induction a as [|c a IH]; cbn [no_white append]; [auto|].
  intros [Hc Ha]%andb_true_iff Hb. rewrite Hc. cbn [andb]. auto.
Qed.

Lemma digits_no_white d : all_digits d = true -> no_white d = true.
Proof.
  induction d as [|c d IH]; cbn [all_digits no_white]; [auto|].
  intros [Hc Hd]%andb_true_iff. rewrite (IH Hd), andb_true_r.
  unfold is_digit in Hc. apply andb_true_iff in Hc as [H1 H2].
  apply Nat.leb_le in H1, H2. unfold is_white.
  apply negb_true_iff, orb_false_iff. split; [apply orb_false_iff; split|].
  - apply andb_false_iff. right. apply Nat.leb_gt. lia.
  - apply Nat.eqb_neq. lia.
  - apply Nat.eqb_neq. lia.
Qed.

Lemma class_first_token v c :
  no_white v = true ->
  first_token (trim ("marquee-" ++ v ++ " " ++ c)) = "marquee-" ++ v.
Proof.
  intros Hv. unfold trim.
  change ("marquee-" ++ v ++ " " ++ c) with (String "m" ("arquee-" ++ v ++ " " ++ c)).
  rewrite trim_start_keeps by reflexivity.
  change (String "m" ("arquee-" ++ v ++ " " ++ c))
    with (("marquee-" ++ v) ++ " " ++ c).
  assert (Hw : no_white ("marquee-" ++ v) = true)
    by (apply no_white_app; [reflexivity|exact Hv]).
  destruct (trim_end_prefix _ c Hw) as (t & E & Ht).
  rewrite E. apply first_token_prefix; assumption.
Qed.

(** X14. The scoping class [marquee-<uid>], which the generated style sheet
    selects, is the first class of both tracks whatever [className] is
    passed, for an identifier without white space; and with no [className]
    (or an empty one) [trim] removes the space the template leaves behind,
    so the attribute is the scoping class alone. *)
Theorem class_scoping v props :
  no_white v = true ->
  first_token (track_className v props) = "marquee-" ++ v
  /\ (default "" (className props) = "" -> track_className v props = "marquee-" ++ v).
Proof.
  intros Hv. split; [apply class_first_token, Hv|].
  unfold track_className, trim. intros ->.
  change ("marquee-" ++ v ++ " " ++ "") with (String "m" (("arquee-" ++ v) ++ " ")).
  rewrite trim_start_keeps by reflexivity.
  change (String "m" (("arquee-" ++ v) ++ " ")) with (("marquee-" ++ v) ++ " ").
  apply trim_end_space, no_white_app; [reflexivity|exact Hv].
Qed.

Lemma class_scoping_witness :
  let props := {| speed := None; axis := None; clone := None;
                  balanceDistance := None; className := Some "  my-list big ";
                  style := None; pauseOnHover := None; fade := None |} in
  no_white "anim-17" = true
  /\ track_className "anim-17" props = "marquee-anim-17   my-list big"
  /\ first_token (track_className "anim-17" props) = "marquee-anim-17"
  /\ track_className "anim-17" no_props = "marquee-anim-17".
Proof.
  intros props. split; [reflexivity|]. split; [reflexivity|].
  destruct (class_scoping "anim-17" props eq_refl) as [H _].
  destruct (class_scoping "anim-17" no_props eq_refl) as [_ H'].
  split; [exact H|apply H'; reflexivity].
Defined.

(** X15. An identifier from [randomUID] scopes: for any ten draws of
    [Math.random] and any [className], the first class of the tracks is
    "marquee-anim-" followed by the digits drawn. *)
Theorem random_class_scoped (random : nat -> number) props :
  (forall i, (i < 10)%nat -> unit_interval (random i) = true) ->
  exists fresh digits,
    randomUID random = Some fresh
    /\ fresh = "anim-" ++ digits
    /\ all_digits digits = true
    /\ first_token (track_className fresh props) = "marquee-anim-" ++ digits.
Proof.
  intros H.
  destruct (join_draws random (seq 0 10)) as (ds & Hj & Ha & _).
  { intros i Hi. apply H. apply in_seq in Hi. lia. }
  exists ("anim-" ++ ds), ds. unfold randomUID. rewrite Hj.
  split; [reflexivity|]. split; [reflexivity|]. split; [exact Ha|].
  unfold track_className. rewrite class_first_token; [reflexivity|].
  apply no_white_app; [reflexivity|apply digits_no_white, Ha].
Qed.

Lemma random_class_scoped_witness :
  (forall i, (i < 10)%nat -> unit_interval (sample_random i) = true)
  /\ exists fresh digits,
       randomUID sample_random = Some fresh
       /\ fresh = "anim-" ++ digits
       /\ all_digits digits = true
       /\ first_token (track_className fresh no_props) = "marquee-anim-" ++ digits.
Proof.
  assert (H : forall i, (i < 10)%nat -> unit_interval (sample_random i) = true).
  { intros i Hi.
    do 10 (destruct i as [|i]; [vm_compute; reflexivity|]). lia. }
  split; [exact H|].
  apply (random_class_scoped sample_random no_props H).
Defined.
